(** * roachprod, package vm: VMs, the provider registry and the dispatch engine

    A shallow embedding of [vm/vm.go] and the properties of it that the
    specification states.

    Conventions.
    - A Go [string] is a [string] (a sequence of bytes); a Go [error] is an
      [option error], [None] being [nil].
    - Code with side effects is a state transformer [S -> A * S]; callbacks
      ([action]) are state transformers over a store of the caller's choice.
    - [range] over a Go map visits the entries in an unspecified order: every
      such loop takes a [MapOrder], any rearrangement of the entries.
    - [log.Fatalf] ends the process: [Locality] returns [None] there.
    - Goroutines started through [errgroup.Group] are run by an interleaving
      machine ([Module errgroup]) driven by an explicit schedule. *)

From Stdlib Require Import Ascii String.
From stdpp Require Import base option list strings gmap fin_maps fin_sets.

Local Open Scope string_scope.
Local Open Scope list_scope.
Local Open Scope nat_scope.

(** ** Errors: [github.com/pkg/errors] *)

(** [errors.New(msg)] (also [errors.Errorf], once its message is rendered) and
    [errors.Wrapf(cause, ...)]. *)
Inductive error : Type :=
| New (msg : string)
| Wrap (cause : error) (msg : string).

(** The [Error()] method: a wrapped error prints its own message, a colon and
    the message of what it wraps. *)
Fixpoint Error (e : error) : string :=
  match e with
  | New msg => msg
  | Wrap cause msg => msg +:+ ": " +:+ Error cause
  end.

(** [errors.Cause]: the innermost error of a chain of wrappers. *)
Fixpoint Cause (e : error) : error :=
  match e with
  | New msg => New msg
  | Wrap cause _ => Cause cause
  end.

#[global] Instance error_eq_dec : EqDecision error.
Proof. solve_decision. Defined.

(** ** Regular expressions: the part of Go's [regexp] that [regionRE] uses

    Go's [regexp] returns the leftmost match and, among the matches that start
    there, the one a backtracking search finds first (greedy operators try
    the longer alternative first).  Without flags [.] matches every character
    but a newline, a negated class does match a newline, and [$] matches at
    the end of the text only.  Characters are bytes here: the classes of
    [regionRE] are ASCII, and every byte of a multi-byte rune is outside
    them, so a match covers the same bytes. *)
Module regexp.

Inductive Regexp : Type :=
| AnyCharNotNL
| CharClass (negated : bool) (ranges : list (ascii * ascii))
| Literal (c : ascii)
| Concat (r1 r2 : Regexp)
| Star (r : Regexp)
| Quest (r : Regexp)
| Capture (i : nat) (r : Regexp)
| EndText.

Definition newline : ascii := ascii_of_nat 10.

Definition in_ranges (c : ascii) (ranges : list (ascii * ascii)) : bool :=
  existsb (fun r => ((nat_of_ascii r.1 <=? nat_of_ascii c)%nat
                     && (nat_of_ascii c <=? nat_of_ascii r.2)%nat)%bool) ranges.

(** Start and end offset of every group matched so far. *)
Abbreviation Caps := (gmap nat (nat * nat)).

(** The rest of the pattern, as a function of the input that is left, the
    offset reached and the groups. *)
Abbreviation Cont := (list ascii → nat → Caps → option Caps).

Fixpoint backtrack (r : Regexp) (s : list ascii) (pos : nat) (caps : Caps)
    (k : Cont) {struct r} : option Caps :=
  match r with
  | AnyCharNotNL =>
      match s with
      | c :: s' => if Ascii.eqb c newline then None else k s' (S pos) caps
      | [] => None
      end
  | CharClass negated ranges =>
      match s with
      | c :: s' =>
          if xorb negated (in_ranges c ranges) then k s' (S pos) caps else None
      | [] => None
      end
  | Literal a =>
      match s with
      | c :: s' => if Ascii.eqb c a then k s' (S pos) caps else None
      | [] => None
      end
  | Concat r1 r2 =>
      backtrack r1 s pos caps (λ s' pos' caps', backtrack r2 s' pos' caps' k)
  | Quest r1 =>
      match backtrack r1 s pos caps k with
      | Some c => Some c
      | None => k s pos caps
      end
  | Star r1 =>
      (fix loop (fuel : nat) (s : list ascii) (pos : nat) (caps : Caps)
         : option Caps :=
         match fuel with
         | 0 => k s pos caps
         | S fuel' =>
             match backtrack r1 s pos caps
                     (λ s' pos' caps',
                        if (length s' <? length s)%nat
                        then loop fuel' s' pos' caps' else None) with
             | Some c => Some c
             | None => k s pos caps
             end
         end) (length s) s pos caps
  | Capture i r1 =>
      backtrack r1 s pos caps
        (λ s' pos' caps', k s' pos' (<[i := (pos, pos')]> caps'))
  | EndText =>
      match s with
      | [] => k s pos caps
      | _ :: _ => None
      end
  end.

(** The loop of [Star] on its own: [backtrack (Star r) s pos caps k] is
    [star_loop r k (length s) s pos caps]. *)
Definition star_loop (r1 : Regexp) (k : Cont) : nat → Cont :=
  fix loop (fuel : nat) (s : list ascii) (pos : nat) (caps : Caps)
    : option Caps :=
    match fuel with
    | 0 => k s pos caps
    | S fuel' =>
        match backtrack r1 s pos caps
                (λ s' pos' caps',
                   if (length s' <? length s)%nat
                   then loop fuel' s' pos' caps' else None) with
        | Some c => Some c
        | None => k s pos caps
        end
    end.

(** A lowercase ASCII letter. *)
Definition lower (c : ascii) : Prop :=
  nat_of_ascii "a" ≤ nat_of_ascii c ≤ nat_of_ascii "z".

(** [NumSubexp]: the number of parenthesised groups. *)
Fixpoint NumSubexp (r : Regexp) : nat :=
  match r with
  | Concat r1 r2 => NumSubexp r1 `max` NumSubexp r2
  | Star r1 | Quest r1 => NumSubexp r1
  | Capture i r1 => i `max` NumSubexp r1
  | _ => 0
  end.

(** The leftmost match: the search is tried at offset 0, then 1, ... *)
Fixpoint leftmost (r : Regexp) (s : list ascii) (start : nat) : option Caps :=
  match backtrack r s start ∅ (λ _ stop caps, Some (<[0 := (start, stop)]> caps)) with
  | Some caps => Some caps
  | None =>
      match s with
      | [] => None
      | _ :: s' => leftmost r s' (S start)
      end
  end.

Definition group (text : list ascii) (caps : Caps) (i : nat) : string :=
  match caps !! i with
  | Some (b, e) => string_of_list_ascii (take (e - b) (drop b text))
  | None => ""
  end.

(** [FindStringSubmatch]: the text of the match and of each group, or the
    empty slice when the pattern does not match. *)
Definition FindStringSubmatch (re : Regexp) (s : string) : list string :=
  let text := list_ascii_of_string s in
  match leftmost re text 0 with
  | Some caps => group text caps <$> seq 0 (S (NumSubexp re))
  | None => []
  end.

End regexp.

(** ** The VM entity *)

Record VM : Type := mkVM {
  Name : string;
  CreatedAt : Z;
  Errors : list error;
  Lifetime : Z;
  DNS : string;
  Provider : string;
  PrivateIP : string;
  PublicIP : string;
  Zone : string
}.

Definition ErrBadNetwork : error := New "could not determine network information".
Definition ErrInvalidName : error := New "invalid VM name".
Definition ErrNoExpiration : error := New "could not determine expiration".

(** [(.*[^-])-?[a-z]$] *)
Definition regionRE : regexp.Regexp :=
  regexp.Concat
    (regexp.Capture 1
       (regexp.Concat (regexp.Star regexp.AnyCharNotNL)
                      (regexp.CharClass true [("-"%char, "-"%char)])))
    (regexp.Concat (regexp.Quest (regexp.Literal "-"%char))
       (regexp.Concat (regexp.CharClass false [("a"%char, "z"%char)])
                      regexp.EndText)).

(** What is left of [regionRE] after [.*], with group 1 opened at [start]
    in a search that began at [top]. *)
Definition after_star (start top : nat) : regexp.Cont :=
  λ s pos caps,
    regexp.backtrack (regexp.CharClass true [("-"%char, "-"%char)]) s pos caps
      (λ s' pos' caps',
         regexp.backtrack
           (regexp.Concat (regexp.Quest (regexp.Literal "-"%char))
              (regexp.Concat (regexp.CharClass false [("a"%char, "z"%char)])
                             regexp.EndText))
           s' pos' (<[1 := (start, pos')]> caps')
           (λ _ stop caps'', Some (<[0 := (top, stop)]> caps''))).

(** What follows the last newline of [s]; all of [s] when it has none. *)
Definition last_line_chars (s : list ascii) : list ascii :=
  foldl (λ line c, if Ascii.eqb c regexp.newline then [] else line ++ [c]) [] s.

Definition last_line (s : string) : string :=
  string_of_list_ascii (last_line_chars (list_ascii_of_string s)).

(** Too long for [-?[a-z]$], or [c] and one more character. *)
Definition no_tail (c : ascii) (rest : list ascii) : Prop :=
  3 ≤ length rest ∨ ∃ l, rest = [c; l].

Section vm_entity.

(** [config.Local], the zone of the local host; the package [config] is
    not part of this file. *)
Variable Local : string.

Definition IsLocal (vm : VM) : bool := bool_decide (Zone vm = Local).

(** [Locality]: [None] stands for the call of [log.Fatalf]. *)
Definition Locality (vm : VM) : option string :=
  let render region := "region=" +:+ region +:+ ",zone=" +:+ Zone vm in
  if IsLocal vm then Some (render (Zone vm))
  else
    let match_ := regexp.FindStringSubmatch regionRE (Zone vm) in
    if bool_decide (length match_ = 2)
    then Some (render (default "" (match_ !! 1)))
    else None.

End vm_entity.

(** ** Lists of VMs *)

Abbreviation List := (list VM).

(** [s[i]] for a Go [int] [i]: outside of [0, len(s)) the program panics
    ([None]). *)
Definition at_index {A : Type} (s : list A) (i : Z) : option A :=
  if bool_decide (0 ≤ i < Z.of_nat (length s))%Z then s !! Z.to_nat i else None.

Definition Len (vl : List) : Z := Z.of_nat (length vl).

(** [vl[i], vl[j] = vl[j], vl[i]]: both values are read, then both
    elements are assigned. *)
Definition Swap (vl : List) (i j : Z) : option List :=
  match at_index vl j, at_index vl i with
  | Some vj, Some vi => Some (<[Z.to_nat j := vi]> (<[Z.to_nat i := vj]> vl))
  | _, _ => None
  end.

(** [<] on Go strings compares them byte by byte. *)
Definition Less (vl : List) (i j : Z) : option bool :=
  match at_index vl i, at_index vl j with
  | Some vi, Some vj => Some (String.ltb (Name vi) (Name vj))
  | _, _ => None
  end.

(** The loop of [Names] and of [Zones]: [ret[i] = f(vm)], for the VMs from
    index [i] on. *)
Fixpoint project (f : VM → string) (i : nat) (vl : List) (ret : list string)
  : list string :=
  match vl with
  | [] => ret
  | vm :: vl' => project f (S i) vl' (<[i := f vm]> ret)
  end.

(** [ret := make([]string, len(vl))], then the loop. *)
Definition Names (vl : List) : list string :=
  project Name 0 vl (replicate (length vl) "").

Definition Zones (vl : List) : list string :=
  project Zone 0 vl (replicate (length vl) "").

(** ** Iteration over a Go map

    The order in which [range] visits a map is not specified and changes
    from one loop to the next: each loop is given its own [MapOrder]. *)
Record MapOrder : Type := {
  shuffle : ∀ A : Type, list A → list A;
  shuffle_perm : ∀ (A : Type) (l : list A), shuffle A l ≡ₚ l
}.

Definition range_map `{Countable K} {V : Type} (o : MapOrder) (m : gmap K V)
  : list (K * V) := shuffle o _ (map_to_list m).

Program Definition in_order : MapOrder := {| shuffle := λ _ l, l |}.
Next Obligation. done. Qed.

Program Definition reversed : MapOrder := {| shuffle := λ _ l, reverse l |}.
Next Obligation. intros. apply reverse_Permutation. Qed.

(** ** The Provider contract

    Of the methods of the interface, [Name] and [FindActiveAccount] are the
    ones this file calls.  [W] is the state of everything outside the
    package that a provider reads or changes. *)
Module Provider.
Class t (W P : Type) : Type := {
  Name : P → string;
  FindActiveAccount : P → W → (string * option error) * W
}.
End Provider.

(** The store of a callback that records its own calls (what a test does
    with a counter in the closure): the calls so far, oldest first, and the
    store of the callback proper. *)
Definition logged {S A R : Type} (f : A → S → R * S)
  : A → list (A * R) * S → R * (list (A * R) * S) :=
  λ a st, let '(r, s') := f a st.2 in (r, (st.1 ++ [(a, r)], s')).

Definition logged2 {S A B R : Type} (f : A → B → S → R * S)
  : A → B → list (A * B * R) * S → R * (list (A * B * R) * S) :=
  λ a b, logged (λ ab, f ab.1 ab.2) (a, b).

(** ** The errgroup: goroutines over the variables of a loop

    [for x := range xs { g.Go(func() error { ... x ... }) }; return g.Wait()]

    The function literal captures the variables of the range clause.
    Before Go 1.22 a loop has one such variable, which every iteration
    assigns and all closures share ([PerLoop]); from Go 1.22 on, in a module
    that asks for it, every iteration has its own ([PerIteration]).  The
    source has no go.mod and imports github.com/pkg/errors by its GOPATH
    name: it is compiled with [PerLoop].

    A closure runs in atomic steps, one per read of the captured variables;
    between two steps the loop and the other goroutines may run.  An
    iteration of the loop (the assignment of the variables and the [g.Go])
    is one step, and so is a call of the callback, of which nothing is
    known but its effect on the store.  A schedule says who moves next. *)
Inductive LoopVar : Type := PerLoop | PerIteration.

Module errgroup.
Section machine.
Context {Env PC S : Type}.

(** One step of the closure: what it reads from the captured variables,
    where it is, the store; it moves on ([inl]) or returns ([inr]). *)
Variable body : Env → PC → S → (PC + option error) * S.
Variable entry : PC.
Variable lv : LoopVar.

Record Group : Type := mkGroup {
  todo : list Env;                  (* the iterations still to run *)
  loopvar : option Env;             (* the variables of the range clause *)
  tasks : list (Env * option PC);   (* per goroutine: the iteration that
                                       started it, and its position
                                       ([None] once it has returned) *)
  err : option error;               (* g.err, written under errOnce *)
  store : S;
  stale : bool                      (* ghost: some goroutine has read the
                                       variables of a later iteration *)
}.

Inductive Pick : Type := Loop | Go (i : nat).

Definition start (iterations : list Env) (s : S) : Group :=
  mkGroup iterations None [] None s false.

(** What goroutine [i], started in the iteration [own], finds in the
    captured variables. *)
Definition captured (g : Group) (own : Env) : Env :=
  match lv with
  | PerLoop => default own (loopvar g)
  | PerIteration => own
  end.

Definition reads_later (g : Group) (i : nat) : bool :=
  match lv with
  | PerLoop => negb (Nat.eqb (Datatypes.S i) (length (tasks g)))
  | PerIteration => false
  end.

Definition step (g : Group) (pk : Pick) : Group :=
  match pk with
  | Loop =>
      match todo g with
      | [] => g
      | x :: rest =>
          mkGroup rest (Some x) (tasks g ++ [(x, Some entry)])
                  (err g) (store g) (stale g)
      end
  | Go i =>
      match tasks g !! i with
      | Some (own, Some pc) =>
          let '(r, s') := body (captured g own) pc (store g) in
          let stale' := stale g || reads_later g i in
          match r with
          | inl pc' =>
              mkGroup (todo g) (loopvar g) (<[i := (own, Some pc')]> (tasks g))
                      (err g) s' stale'
          | inr e =>
              mkGroup (todo g) (loopvar g) (<[i := (own, None)]> (tasks g))
                      (from_option Some e (err g)) s' stale'
          end
      | _ => g
      end
  end.

Definition run (sched : list Pick) (g : Group) : Group := foldl step g sched.

(** [g.Wait()] returns once the loop is over and every goroutine has
    returned. *)
Definition finished (g : Group) : bool :=
  match todo g with
  | [] => forallb (λ t, bool_decide (t.2 = None)) (tasks g)
  | _ :: _ => false
  end.

(** The value of [g.Wait()] and the final store, or [None] when the
    schedule ends before the group has. *)
Definition Wait (sched : list Pick) (iterations : list Env) (s : S)
  : option (option error * S) :=
  let g := run sched (start iterations s) in
  if finished g then Some (err g, store g) else None.

(** The iterations started and those to come are the iterations of the
    loop, and the loop variables hold the last one started. *)
Definition wf (its : list Env) (g : Group) : Prop :=
  (tasks g).*1 ++ todo g = its ∧ loopvar g = last (tasks g).*1.

(** Every goroutine started has returned. *)
Definition quiet (g : Group) : Prop := Forall (λ t, t.2 = None) (tasks g).

(** Two schedules for [n] goroutines of [steps] steps each: every
    goroutine right after its [g.Go]; every goroutine after the loop. *)
Definition eager (steps n : nat) : list Pick :=
  i ← seq 0 n; Loop :: replicate steps (Go i).

Definition late (steps n : nat) : list Pick :=
  replicate n Loop ++ (i ← seq 0 n; replicate steps (Go i)).

End machine.
End errgroup.

(** ** The registry and the dispatch engine *)

Section dispatch.
Context {W P : Type} {Prov : Provider.t W P}.

(** [Providers], filled by the [init] functions of the provider packages
    before anything here runs; the functions of this file only read it. *)
Variable Providers : gmap string P.

Definition AllProviderNames (o : MapOrder) : list string :=
  (range_map o Providers).*1.

Definition ForProvider {S : Type} (named : string)
    (action : P → S → option error * S) (s : S) : option error * S :=
  match Providers !! named with
  | None => (Some (New ("unknown vm provider: " +:+ named)), s)
  | Some p =>
      let '(err, s') := action p s in
      match err with
      | Some e => (Some (Wrap e ("in provider: " +:+ named)), s')
      | None => (None, s')
      end
  end.

Fixpoint ProvidersSequential {S : Type} (named : list string)
    (action : P → S → option error * S) (s : S) : option error * S :=
  match named with
  | [] => (None, s)
  | name :: named' =>
      match ForProvider name action s with
      | (Some e, s') => (Some e, s')
      | (None, s') => ProvidersSequential named' action s'
      end
  end.

(** The closure of [ProvidersParallel] reads [name] once, for the
    argument of [ForProvider]. *)
Definition ProvidersParallel_closure {S : Type}
    (action : P → S → option error * S)
    (name : string) (pc : unit) (s : S) : (unit + option error) * S :=
  let '(e, s') := ForProvider name action s in (inr e, s').

Definition ProvidersParallel {S : Type} (lv : LoopVar)
    (sched : list errgroup.Pick) (named : list string)
    (action : P → S → option error * S) (s : S)
  : option (option error * S) :=
  errgroup.Wait (ProvidersParallel_closure action) () lv sched named s.

(** Ghost: in that execution some goroutine reads the loop variable of a
    later iteration. *)
Definition ProvidersParallel_reads_late {S : Type} (lv : LoopVar)
    (sched : list errgroup.Pick) (named : list string)
    (action : P → S → option error * S) (s : S) : bool :=
  errgroup.stale
    (errgroup.run (ProvidersParallel_closure action) () lv sched
       (errgroup.start named s)).

(** The first loop of [FanOut]. *)
Definition collate (list : List) : gmap string List :=
  foldl (λ m vm, <[Provider vm := default [] (m !! Provider vm) ++ [vm]]> m)
        ∅ list.

(** The closure of [FanOut] reads [name] for the lookup, then [name]
    again for the message or [vms] for the call. *)
Inductive FanOutPC : Type :=
| AtLookup
| AtUnknown
| AtAction (p : P).

Definition FanOut_closure {S : Type}
    (action : P → List → S → option error * S)
    (captured : string * List) (pc : FanOutPC) (s : S)
  : (FanOutPC + option error) * S :=
  match pc with
  | AtLookup =>
      match Providers !! captured.1 with
      | Some p => (inl (AtAction p), s)
      | None => (inl AtUnknown, s)
      end
  | AtUnknown =>
      (inr (Some (New ("unknown provider name: " +:+ captured.1))), s)
  | AtAction p =>
      let '(e, s') := action p captured.2 s in (inr e, s')
  end.

Definition FanOut {S : Type} (lv : LoopVar) (o : MapOrder)
    (sched : list errgroup.Pick) (list : List)
    (action : P → List → S → option error * S) (s : S)
  : option (option error * S) :=
  errgroup.Wait (FanOut_closure action) AtLookup lv sched
                (range_map o (collate list)) s.

Definition FanOut_reads_late {S : Type} (lv : LoopVar) (o : MapOrder)
    (sched : list errgroup.Pick) (list : List)
    (action : P → List → S → option error * S) (s : S) : bool :=
  errgroup.stale
    (errgroup.run (FanOut_closure action) AtLookup lv sched
       (errgroup.start (range_map o (collate list)) s)).

(** ** The active account *)

(** The package-level variable [cachedActiveAccount], and the world the
    providers live in. *)
Record Globals : Type := mkGlobals {
  cachedActiveAccount : string;
  world : W
}.

(** How [fmt] prints a [map[string]string] under the verb %s. *)
Variable fmt_map : gmap string string → string.

(** The closure given to [ProvidersSequential]: its store is the local
    map [providerAccounts] and the world. *)
Definition askAccount (p : P) (st : gmap string string * W)
  : option error * (gmap string string * W) :=
  let key := Provider.Name p in
  let '((acct, err), w') := Provider.FindActiveAccount p st.2 in
  (err, (<[key := acct]> st.1, w')).

(** An [int]: 64 bits, wrapping. *)
Definition wrap_int (z : Z) : Z := ((z + 2 ^ 63) `mod` 2 ^ 64 - 2 ^ 63)%Z.

(** The loop over [providerAccounts]: [counts] and [lastAccount]. *)
Definition countAccounts (entries : list (string * string))
  : gmap string Z * string :=
  foldl (λ (st : gmap string Z * string) (entry : string * string),
           let acct := entry.2 in
           if bool_decide (0 < String.length acct)%nat
           then (<[acct := wrap_int (default 0%Z (st.1 !! acct) + 1)]> st.1, acct)
           else st)
        (∅, "") entries.

Definition FindActiveAccount (o1 o2 : MapOrder) (g : Globals)
  : (string * option error) * Globals :=
  if bool_decide (0 < String.length (cachedActiveAccount g))%nat
  then ((cachedActiveAccount g, None), g)
  else
    let '(err, (providerAccounts, w)) :=
      ProvidersSequential (AllProviderNames o1) askAccount (∅, world g) in
    let g' := mkGlobals (cachedActiveAccount g) w in
    match err with
    | Some e => (("", Some e), g')
    | None =>
        let '(counts, lastAccount) :=
          countAccounts (range_map o2 providerAccounts) in
        match size counts with
        | 0 => (("", Some (New "no Providers returned any active accounts")), g')
        | 1 => ((lastAccount, None), mkGlobals lastAccount w)
        | _ =>
            (("", Some (New ("multiple active Provider accounts detected: "
                             +:+ fmt_map providerAccounts))), g')
        end
    end.

(** The resolution in the words of the specification, to compare
    [FindActiveAccount] with: the providers are asked in turn, the first
    error ends the resolution, and the answers are kept by provider
    name. *)
Fixpoint poll (ps : list P) (w : W) : option (list (string * string)) * W :=
  match ps with
  | [] => (Some [], w)
  | p :: ps' =>
      let '((acct, err), w') := Provider.FindActiveAccount p w in
      match err with
      | Some _ => (None, w')
      | None =>
          let '(answers, w'') := poll ps' w' in
          ((λ l, (Provider.Name p, acct) :: l) <$> answers, w'')
      end
  end.

(** [providerAccounts[name] = acct] *)
Definition keep_answer (m : gmap string string) (answer : string * string)
  : gmap string string := <[answer.1 := answer.2]> m.

(** The distinct accounts among the answers; the empty string is no
    vote. *)
Definition votes (answers : list (string * string)) : gset string :=
  list_to_set (filter (λ acct, acct ≠ "") answers.*2).

(** No two registered providers have the same [Name()]: the interface
    asks [Name()] to be the key in [Providers]. *)
Definition names_distinct : Prop :=
  ∀ k1 k2 p1 p2,
    Providers !! k1 = Some p1 → Providers !! k2 = Some p2 →
    Provider.Name p1 = Provider.Name p2 → k1 = k2.

(** A process that calls [FindActiveAccount] time after time; between
    two calls the world may change in any way.  The globals after each
    call. *)
Fixpoint calls (cs : list (MapOrder * MapOrder * (W → W))) (g : Globals)
  : list Globals :=
  match cs with
  | [] => []
  | (o1, o2, between) :: cs' =>
      let g' := (FindActiveAccount o1 o2 g).2 in
      g' :: calls cs' (mkGlobals (cachedActiveAccount g') (between (world g')))
  end.

End dispatch.

(** ** What the specification says of [FanOut] and [ProvidersParallel] *)

Section dispatch_spec.
Context {P : Type}.
Variable Providers : gmap string P.

(** The groups the specification speaks of: one per provider name of the
    list, with the VMs of that provider in the order of the list. *)
Definition groups (vms : List) : list (string * List) :=
  (λ name, (name, filter (λ vm, Provider vm = name) vms))
    <$> remove_dups (Provider <$> vms).

(** The call a group stands for, when its provider is registered. *)
Definition resolve (group : string * List) : option (P * List) :=
  (λ p, (p, group.2)) <$> Providers !! group.1.

(** The call a goroutine of [FanOut] has made, in an execution where it
    has read its own variables: none before it returns, none for an
    unknown name. *)
Definition call_made (t : (string * List) * option (@FanOutPC P))
  : option (P * List) :=
  match t.2 with
  | None => resolve t.1
  | Some _ => None
  end.

Definition position_ok (t : (string * List) * option (@FanOutPC P)) : Prop :=
  match t.2 with
  | Some (AtAction p) => Providers !! t.1.1 = Some p
  | Some AtUnknown => Providers !! t.1.1 = None
  | _ => True
  end.

Definition unknown_provider (its : list (string * List)) (e : error) : Prop :=
  ∃ name, name ∈ its.*1 ∧ Providers !! name = None
          ∧ e = New ("unknown provider name: " +:+ name).

(** What holds of the group of [FanOut] as long as no goroutine has read
    the variables of a later iteration. *)
Record FanOut_inv {S : Type} (its : list (string * List))
    (g : errgroup.Group (Env := string * List) (PC := @FanOutPC P)
                        (S := list (P * List * option error) * S)) : Prop := {
  inv_positions : Forall position_ok (errgroup.tasks g);
  inv_calls : (errgroup.store g).1.*1 ≡ₚ omap call_made (errgroup.tasks g);
  inv_err :
    match errgroup.err g with
    | Some e => unknown_provider its e
                ∨ ∃ call, (call, Some e) ∈ (errgroup.store g).1
    | None => Forall (λ t, t.2 = None → is_Some (Providers !! t.1.1))
                     (errgroup.tasks g)
    end
}.

(** The provider a goroutine of [ProvidersParallel] has called, in an
    execution where it has read its own variable. *)
Definition provider_called (t : string * option unit) : option P :=
  match t.2 with
  | None => Providers !! t.1
  | Some _ => None
  end.

Definition unknown_vm_provider (named : list string) (e : error) : Prop :=
  ∃ name, name ∈ named ∧ Providers !! name = None
          ∧ e = New ("unknown vm provider: " +:+ name).

Definition wrapped_failure (named : list string)
    (log : list (P * option error)) (e : error) : Prop :=
  ∃ name p cause, name ∈ named ∧ Providers !! name = Some p
                  ∧ (p, Some cause) ∈ log
                  ∧ e = Wrap cause ("in provider: " +:+ name).

Record ProvidersParallel_inv {S : Type} (action : P → S → option error * S)
    (named : list string)
    (g : errgroup.Group (Env := string) (PC := unit)
                        (S := list (P * option error) * S)) : Prop := {
  pp_calls : (errgroup.store g).1.*1 ≡ₚ omap provider_called (errgroup.tasks g);
  pp_results :
    Forall (λ c, ∃ s, (action c.1 s).1 = c.2) (errgroup.store g).1;
  pp_err :
    match errgroup.err g with
    | Some e => unknown_vm_provider named e
                ∨ wrapped_failure named (errgroup.store g).1 e
    | None =>
        Forall (λ t, t.2 = None →
                     ∃ p, Providers !! t.1 = Some p
                          ∧ (p, None) ∈ (errgroup.store g).1)
               (errgroup.tasks g)
    end
}.
End dispatch_spec.

(** ** Providers to run the definitions on *)

(** A provider that always gives the same answer. *)
Record Fixed : Type := mkFixed {
  fixed_name : string;
  fixed_account : string;
  fixed_error : option error
}.

#[global] Instance Fixed_provider : Provider.t unit Fixed := {|
  Provider.Name := fixed_name;
  Provider.FindActiveAccount p w := ((fixed_account p, fixed_error p), w)
|}.

(** Any provider, with a count of the calls of [FindActiveAccount] added to
    the world. *)
Definition counting `(I : Provider.t W P) : Provider.t (nat * W) P := {|
  Provider.Name := Provider.Name;
  Provider.FindActiveAccount p st :=
    let '(r, w') := Provider.FindActiveAccount p st.2 in (r, (S st.1, w'))
|}.

Definition vm_of (name provider zone : string) : VM :=
  mkVM name 0 [] 0 "" provider "" "" zone.

Definition aws : Fixed := mkFixed "aws" "acct1" None.
Definition gce : Fixed := mkFixed "gce" "acct1" None.
Definition azure : Fixed := mkFixed "azure" "" None.

Definition two_clouds : gmap string Fixed := <["aws" := aws]> (<["gce" := gce]> ∅).
Definition three_clouds : gmap string Fixed := <["azure" := azure]> two_clouds.


(** An action that fails for the provider called [name] and does nothing
    else. *)
Definition failing_for (name : string) (e : error) (p : Fixed) (s : unit)
  : option error * unit :=
  (if decide (fixed_name p = name) then Some e else None, s).

Definition boom : error := New "boom".

Definition succeeding (p : Fixed) (s : unit) : option error * unit := (None, s).

Definition gce2 : Fixed := mkFixed "gce" "acct2" None.
Definition split_clouds : gmap string Fixed := <["aws" := aws]> (<["gce" := gce2]> ∅).

Definition mixed : List :=
  [vm_of "a1" "aws" "us-east-1a"; vm_of "g1" "gce" "us-east1-b";
   vm_of "a2" "aws" "us-east-1b"].

Definition stray : List :=
  [vm_of "a1" "aws" "us-east-1a"; vm_of "x1" "bogus" "nowhere-1a"].

Definition fmt_entries (m : gmap string string) : string :=
  "map[" +:+ String.concat " " ((λ kv, kv.1 +:+ ":" +:+ kv.2) <$> map_to_list m)
  +:+ "]".

(** The zones that [regionRE] matches: at the end, a character other than
    a hyphen, then a hyphen or nothing, then a lowercase letter. *)
Definition region_zone (zone : string) : Prop :=
  ∃ (pre : string) (c l : ascii),
    (zone = pre +:+ String c (String l "")
     ∨ zone = pre +:+ String c (String "-" (String l "")))
    ∧ c ≠ "-"%char ∧ regexp.lower l.

(** The same, of the characters. *)
Definition zone_end (s : list ascii) : Prop :=
  ∃ a c l, (s = a ++ [c; l] ∨ s = a ++ [c; "-"%char; l])
           ∧ c ≠ "-"%char ∧ regexp.lower l.

(** A provider whose [FindActiveAccount] fails. *)
Definition offline : Fixed := mkFixed "offline" "" (Some boom).
Definition flaky_clouds : gmap string Fixed := <["offline" := offline]> two_clouds.


(** * Properties *)

(** ** [regionRE] and [Locality] *)

Module regexp_facts.
Import regexp.

Lemma eqb_false_of_nat (c d : ascii) :
  nat_of_ascii c ≠ nat_of_ascii d → Ascii.eqb c d = false.
Proof. intros H. apply Ascii.eqb_neq. congruence. Qed.

Lemma in_single_range c d : in_ranges c [(d, d)] = Ascii.eqb c d.
Proof.
  unfold in_ranges; cbn [existsb fst snd]. rewrite orb_false_r.
  destruct (Ascii.eqb_spec c d) as [->|Hne].
  - by rewrite Nat.leb_refl.
  - apply andb_false_iff. rewrite !Nat.leb_gt.
    destruct (decide (nat_of_ascii c = nat_of_ascii d)) as [E|E]; [|lia].
    exfalso. apply Hne.
    rewrite <- (ascii_nat_embedding c), E. apply ascii_nat_embedding.
Qed.

Lemma lower_in_az l : lower l → in_ranges l [("a"%char, "z"%char)] = true.
Proof.
  intros [H1 H2]. unfold in_ranges; cbn [existsb fst snd].
  rewrite orb_false_r. apply andb_true_iff. split; by apply Nat.leb_le.
Qed.

Lemma lower_not_hyphen l : lower l → Ascii.eqb l "-" = false.
Proof.
  intros [H1 H2]. apply eqb_false_of_nat.
  vm_compute (nat_of_ascii "a") in H1. vm_compute (nat_of_ascii "-"). lia.
Qed.

Lemma lower_not_newline l : lower l → Ascii.eqb l newline = false.
Proof.
  intros [H1 H2]. apply eqb_false_of_nat.
  vm_compute (nat_of_ascii "a") in H1. vm_compute (nat_of_ascii newline). lia.
Qed.

Lemma star_any_nil k fuel pos caps :
  star_loop AnyCharNotNL k fuel [] pos caps = k [] pos caps.
Proof. by destruct fuel. Qed.

Lemma star_any_cons k fuel c s pos caps :
  star_loop AnyCharNotNL k (S fuel) (c :: s) pos caps =
  if Ascii.eqb c newline then k (c :: s) pos caps
  else match star_loop AnyCharNotNL k fuel s (S pos) caps with
       | Some r => Some r
       | None => k (c :: s) pos caps
       end.
Proof.
  simpl. destruct (Ascii.eqb c newline); [done|].
  by rewrite (proj2 (Nat.ltb_lt _ _) (Nat.lt_succ_diag_r (length s))).
Qed.

(** [.*] runs through a prefix without newline: if the search succeeds
    from the end of the prefix, that is its result. *)
Lemma star_any_prefix k pre rest r caps :
  Forall (λ c, Ascii.eqb c newline = false) pre →
  ∀ pos fuel,
    length (pre ++ rest) ≤ fuel →
    (∀ fuel', length rest ≤ fuel' →
       star_loop AnyCharNotNL k fuel' rest (pos + length pre) caps = Some r) →
    star_loop AnyCharNotNL k fuel (pre ++ rest) pos caps = Some r.
Proof.
  induction 1 as [|c pre Hc Hpre IH]; intros pos fuel Hfuel Hrest.
  - rewrite Nat.add_0_r in Hrest. by apply Hrest.
  - destruct fuel as [|fuel]; [simpl in Hfuel; lia|].
    change ((c :: pre) ++ rest) with (c :: (pre ++ rest)).
    rewrite star_any_cons, Hc, (IH (S pos) fuel); [done|simpl in Hfuel; lia|].
    intros fuel' Hf. rewrite <- (Hrest fuel' Hf). f_equal. simpl. lia.
Qed.

Lemma backtrack_regionRE s start :
  backtrack regionRE s start ∅ (λ _ stop caps, Some (<[0 := (start, stop)]> caps))
  = star_loop AnyCharNotNL (after_star start start) (length s) s start ∅.
Proof. reflexivity. Qed.

(** On the last two characters: [.*] first takes both, then one, and
    the rest of the pattern fails; with none, it matches. *)
Lemma star_tail c l pos fuel start :
  lower l → Ascii.eqb c "-" = false → 2 ≤ fuel →
  star_loop AnyCharNotNL (after_star start start) fuel [c; l] pos ∅
  = Some (<[0 := (start, S (S pos))]> (<[1 := (start, S pos)]> ∅)).
Proof.
  intros Hl Hc Hfuel.
  destruct fuel as [|[|fuel]]; [lia..|].
  assert (Hk : after_star start start [c; l] pos ∅
               = Some (<[0 := (start, S (S pos))]> (<[1 := (start, S pos)]> ∅))).
  { unfold after_star. cbn [backtrack].
    rewrite in_single_range, Hc. cbn [xorb negb].
    rewrite (lower_not_hyphen l Hl), (lower_in_az l Hl). done. }
  rewrite star_any_cons. destruct (Ascii.eqb c newline); [done|].
  rewrite star_any_cons, (lower_not_newline l Hl), star_any_nil.
  unfold after_star at 1. cbn [backtrack].
  unfold after_star at 1. cbn [backtrack].
  rewrite in_single_range, (lower_not_hyphen l Hl). cbn [xorb negb backtrack].
  exact Hk.
Qed.

Abbreviation no_newline := (Forall (λ c, Ascii.eqb c newline = false)).

Lemma last_line_chars_split s :
  (no_newline s ∧ last_line_chars s = s)
  ∨ ∃ s1, s = s1 ++ newline :: last_line_chars s ∧ no_newline (last_line_chars s).
Proof.
  unfold last_line_chars. induction s as [|x s IH] using rev_ind; [by left|].
  rewrite foldl_snoc. destruct (Ascii.eqb_spec x newline) as [->|Hx].
  - right. exists s. split; [done|constructor].
  - destruct IH as [[Hs ->]|(s1 & Hs & Hl)].
    + left. split; [|done]. apply Forall_app. split; [done|].
      constructor; [|done]. by apply Ascii.eqb_neq.
    + right. exists s1. split.
      * rewrite Hs at 1. by rewrite <- app_assoc.
      * apply Forall_app. split; [done|]. constructor; [|done]. by apply Ascii.eqb_neq.
Qed.

Lemma backtrack_class_cons negated ranges x s pos caps k :
  backtrack (CharClass negated ranges) (x :: s) pos caps k
  = if xorb negated (in_ranges x ranges) then k s (S pos) caps else None.
Proof. reflexivity. Qed.

Section no_match.
Variables (c : ascii) (start top : nat).
Hypothesis Hc : Ascii.eqb c "-" = false.

Lemma tail_fails rest pos caps k :
  no_tail c rest →
  backtrack (Concat (Quest (Literal "-"%char))
               (Concat (CharClass false [("a"%char, "z"%char)]) EndText))
    rest pos caps k = None.
Proof.
  intros [Hlen|[l ->]]; cbn [backtrack].
  - destruct rest as [|x [|y [|z w]]]; [simpl in Hlen; lia..|].
    destruct (Ascii.eqb x "-"); [destruct (xorb _ _)|]; by destruct (xorb _ _).
  - rewrite Hc. by destruct (xorb _ _).
Qed.

Lemma after_star_fails x rest pos caps :
  no_tail c rest → after_star start top (x :: rest) pos caps = None.
Proof.
  intros Hrest. unfold after_star. rewrite backtrack_class_cons.
  destruct (xorb _ _); [|done]. by apply tail_fails.
Qed.

Lemma no_tail_longer x rest : no_tail c rest → no_tail c (x :: rest).
Proof. intros [?|[l ->]]; left; simpl; lia. Qed.

Lemma no_tail_app q x rest : no_tail c rest → no_tail c (q ++ x :: rest).
Proof.
  intros H. induction q as [|y q IH]; [by apply no_tail_longer|].
  by apply no_tail_longer.
Qed.

(** [.*] stops at the newline: nothing it can take leaves a tail that
    matches. *)
Lemma star_any_fails a b :
  no_newline a → no_tail c b →
  ∀ fuel pos caps,
    star_loop AnyCharNotNL (after_star start top) fuel (a ++ newline :: b) pos caps
    = None.
Proof.
  induction 1 as [|x a Hx Ha IH]; intros Hb fuel pos caps.
  - destruct fuel as [|fuel].
    + by apply after_star_fails.
    + rewrite app_nil_l, star_any_cons, Ascii.eqb_refl. by apply after_star_fails.
  - change ((x :: a) ++ newline :: b) with (x :: (a ++ newline :: b)).
    destruct fuel as [|fuel].
    + apply after_star_fails. by apply no_tail_app.
    + rewrite star_any_cons, Hx, IH by done.
      apply after_star_fails. by apply no_tail_app.
Qed.

Lemma split_at_newline q b :
  no_tail c b →
  ∃ a b', q ++ newline :: b = a ++ newline :: b' ∧ no_newline a ∧ no_tail c b'.
Proof.
  intros Hb. induction q as [|x q (a & b' & Heq & Ha & Hb')].
  - exists [], b. by split_and!.
  - destruct (Ascii.eqb x newline) eqn:Hx.
    + apply Ascii.eqb_eq in Hx as ->.
      exists [], (q ++ newline :: b). split_and!; [done|done|].
      by apply no_tail_app.
    + exists (x :: a), b'. split_and!; [|by constructor|done].
      simpl. by rewrite Heq.
Qed.
End no_match.

Lemma backtrack_regionRE_fails c q b start :
  Ascii.eqb c "-" = false → no_tail c b →
  backtrack regionRE (q ++ newline :: b) start ∅
    (λ _ stop caps, Some (<[0 := (start, stop)]> caps)) = None.
Proof.
  intros Hc Hb. rewrite backtrack_regionRE.
  destruct (split_at_newline c q b Hb) as (a & b' & -> & Ha & Hb').
  by apply (star_any_fails c).
Qed.

(** The search starts again after every newline. *)
Lemma leftmost_skips c q b start :
  Ascii.eqb c "-" = false → no_tail c b →
  leftmost regionRE (q ++ newline :: b) start
  = leftmost regionRE b (start + length q + 1).
Proof.
  intros Hc Hb. revert start. induction q as [|x q IH]; intros start.
  - pose proof (backtrack_regionRE_fails c [] b start Hc Hb) as H.
    rewrite app_nil_l in *. cbn [leftmost]. rewrite H.
    f_equal. simpl. lia.
  - pose proof (backtrack_regionRE_fails c (x :: q) b start Hc Hb) as H.
    change ((x :: q) ++ newline :: b) with (x :: (q ++ newline :: b)) in *.
    cbn [leftmost]. rewrite H, IH.
    f_equal. simpl. lia.
Qed.

Lemma leftmost_regionRE_at pre c l start :
  no_newline pre → lower l → Ascii.eqb c "-" = false →
  leftmost regionRE (pre ++ [c; l]) start
  = Some (<[0 := (start, start + length pre + 2)]>
            (<[1 := (start, start + length pre + 1)]> ∅)).
Proof.
  intros Hpre Hl Hc.
  assert (backtrack regionRE (pre ++ [c; l]) start ∅
            (λ _ stop caps, Some (<[0 := (start, stop)]> caps))
          = Some (<[0 := (start, start + length pre + 2)]>
                    (<[1 := (start, start + length pre + 1)]> ∅)))
    as H.
  { rewrite backtrack_regionRE. apply star_any_prefix; [done..|].
    intros fuel' Hf. simpl in Hf. rewrite star_tail by done.
    do 4 f_equal; simpl; lia. }
  destruct (pre ++ [c; l]); cbn [leftmost]; by rewrite H.
Qed.

Lemma list_ascii_of_string_app (a b : string) :
  list_ascii_of_string (a +:+ b) = list_ascii_of_string a ++ list_ascii_of_string b.
Proof. induction a as [|x a IH]; simpl; [done|by rewrite IH]. Qed.

Lemma string_of_list_ascii_app (a b : list ascii) :
  string_of_list_ascii (a ++ b) = string_of_list_ascii a +:+ string_of_list_ascii b.
Proof. induction a as [|x a IH]; simpl; [done|by rewrite IH]. Qed.

Lemma no_tail_zone pre c l : no_tail c (pre ++ [c; l]).
Proof.
  destruct pre as [|x pre]; [right; by exists l|left].
  rewrite length_app. simpl. lia.
Qed.

(** [FindStringSubmatch] on a zone that ends in a letter with a character
    other than a hyphen before it: the match starts after the last newline
    before these two characters. *)
Lemma FindStringSubmatch_regionRE (pre : string) (c l : ascii) :
  lower l → c ≠ "-"%char →
  FindStringSubmatch regionRE (pre +:+ String c (String l ""))
  = [last_line pre +:+ String c (String l ""); last_line pre +:+ String c ""].
Proof.
  intros Hl Hc%Ascii.eqb_neq. unfold FindStringSubmatch, last_line.
  rewrite list_ascii_of_string_app. cbn [list_ascii_of_string].
  set (text := list_ascii_of_string pre).
  set (line := last_line_chars text).
  assert (∃ skipped, text = skipped ++ line ∧ no_newline line
          ∧ leftmost regionRE (text ++ [c; l]) 0
            = leftmost regionRE (line ++ [c; l]) (length skipped))
    as (skipped & Htext & Hline & ->).
  { destruct (last_line_chars_split text) as [[Hnl Heq]|(s1 & Heq & Hnl)];
      fold line in Heq, Hnl.
    - exists []. by rewrite Heq.
    - exists (s1 ++ [newline]). split_and!; [by rewrite <- app_assoc|done|].
      rewrite Heq at 1. rewrite <- app_assoc. cbn [app].
      rewrite (leftmost_skips c s1 (line ++ [c; l]) 0 Hc (no_tail_zone line c l)).
      f_equal. rewrite length_app. simpl. lia. }
  rewrite leftmost_regionRE_at by done.
  change (NumSubexp regionRE) with 1. cbn [seq fmap list_fmap].
  unfold group. rewrite lookup_insert_eq, lookup_insert_ne, lookup_insert_eq by done.
  rewrite Htext, <- app_assoc, drop_app_length.
  f_equal; [|f_equal].
  - rewrite take_ge by (rewrite length_app; simpl; lia).
    by rewrite string_of_list_ascii_app.
  - replace (line ++ [c; l]) with ((line ++ [c]) ++ [l]) by by rewrite <- app_assoc.
    rewrite take_app_length' by (rewrite length_app; simpl; lia).
    by rewrite string_of_list_ascii_app.
Qed.

Lemma last_line_no_newline (pre : string) :
  newline ∉ list_ascii_of_string pre → last_line pre = pre.
Proof.
  intros Hpre. unfold last_line.
  destruct (last_line_chars_split (list_ascii_of_string pre))
    as [[_ ->]|(s1 & Heq & _)]; [apply string_of_list_ascii_of_string|].
  exfalso. apply Hpre. rewrite Heq. apply elem_of_app. right. left.
Qed.

End regexp_facts.

Section Locality_facts.
Variable Local : string.

(** C8. [Locality] on the zone "us-east1-b" (which is not the zone of the
    local host) is "region=us-east1,zone=us-east1-b"; on the zone [Local]
    of the local host it is "region=Local,zone=Local".  Neither call
    reaches [log.Fatalf]. *)
Theorem Locality_us_east1_b_and_local :
  (∀ vm, Zone vm = "us-east1-b" → Local ≠ "us-east1-b" →
         Locality Local vm = Some "region=us-east1,zone=us-east1-b")
  ∧ (∀ vm, Zone vm = Local →
           Locality Local vm = Some ("region=" +:+ Local +:+ ",zone=" +:+ Local)).
Proof.
  split; intros vm Hz.
  - intros Hne. unfold Locality, IsLocal. rewrite Hz.
    rewrite bool_decide_eq_false_2 by done.
    by vm_compute.
  - unfold Locality, IsLocal. rewrite bool_decide_eq_true_2 by done.
    by rewrite Hz.
Qed.

(** C10, as amended.  For a VM that is not local and whose zone ends in a
    lowercase ASCII letter with a character other than a hyphen before it,
    [Locality] does not reach [log.Fatalf]: the zone matches the pattern,
    and the region is the zone without its last letter, taken from after
    the last newline that comes before the last two characters; so it is
    the whole zone without its last letter when there is no such
    newline. *)
Theorem Locality_no_separator (vm : VM) (pre : string) (c l : ascii) :
  Zone vm = pre +:+ String c (String l "") →
  regexp.lower l → c ≠ "-"%char →
  Zone vm ≠ Local →
  Locality Local vm
  = Some ("region=" +:+ (last_line pre +:+ String c "") +:+ ",zone=" +:+ Zone vm)
  ∧ (regexp.newline ∉ list_ascii_of_string pre → last_line pre = pre).
Proof.
  intros Hz Hl Hc Hloc. split; [|apply regexp_facts.last_line_no_newline].
  unfold Locality, IsLocal.
  rewrite bool_decide_eq_false_2 by done.
  rewrite Hz, regexp_facts.FindStringSubmatch_regionRE by done.
  done.
Qed.

End Locality_facts.

Lemma Locality_us_east1_b_and_local_witness :
  Locality "local" (vm_of "n1" "gce" "us-east1-b")
    = Some "region=us-east1,zone=us-east1-b"
  ∧ Locality "local" (vm_of "n0" "local" "local")
    = Some "region=local,zone=local".
Proof.
  destruct (Locality_us_east1_b_and_local "local") as [H1 H2].
  split; [by apply H1|by apply (H2 (vm_of "n0" "local" "local"))].
Defined.

Lemma Locality_no_separator_witness :
  Locality "local" (vm_of "n1" "gce" "useast1b")
  = Some "region=useast1,zone=useast1b".
Proof.
  refine (proj1 (Locality_no_separator "local" (vm_of "n1" "gce" "useast1b")
                   "useast" "1"%char "b"%char eq_refl _ _ _)).
  - vm_compute. split; lia.
  - discriminate.
  - discriminate.
Defined.

(** C10, as stated, fails on a zone with a newline: from "a", a newline
    and "bcd" the pattern matches "bcd" alone, and the region is "bc". *)
Lemma Locality_no_separator_newline :
  let zone := "a" +:+ String regexp.newline "bcd" in
  let vm := vm_of "n1" "gce" zone in
  zone = ("a" +:+ String regexp.newline "b") +:+ String "c" (String "d" "")
  ∧ regexp.lower "d" ∧ "c"%char ≠ "-"%char ∧ IsLocal "local" vm = false
  ∧ Locality "local" vm = Some ("region=bc,zone=" +:+ zone)
  ∧ Locality "local" vm
    ≠ Some ("region=" +:+ ("a" +:+ String regexp.newline "bc") +:+ ",zone=" +:+ zone).
Proof.
  repeat split; try done; vm_compute; lia.
Qed.

(** ** [ForProvider] and [ProvidersSequential] *)

Section dispatch_facts.
Context {W P : Type} {Prov : Provider.t W P}.
Variable Providers : gmap string P.
Variable fmt_map : gmap string string → string.

Lemma ForProvider_unknown {S : Type} named (action : P → S → option error * S) s :
  Providers !! named = None →
  ForProvider Providers named action s
  = (Some (New ("unknown vm provider: " +:+ named)), s).
Proof. unfold ForProvider. by intros ->. Qed.

Lemma ForProvider_failure {S : Type} named (action : P → S → option error * S)
    s p e s' :
  Providers !! named = Some p → action p s = (Some e, s') →
  ForProvider Providers named action s
  = (Some (Wrap e ("in provider: " +:+ named)), s').
Proof. unfold ForProvider. by intros -> ->. Qed.

Lemma ForProvider_success {S : Type} named (action : P → S → option error * S)
    s p s' :
  Providers !! named = Some p → action p s = (None, s') →
  ForProvider Providers named action s = (None, s').
Proof. unfold ForProvider. by intros -> ->. Qed.

Lemma logged_call {S A R : Type} (f : A → S → R * S) a log s r s' :
  f a s = (r, s') → logged f a (log, s) = (r, (log ++ [(a, r)], s')).
Proof. unfold logged. simpl. by intros ->. Qed.

(** C6. [ForProvider named action]: when [named] is not registered, the
    error is "unknown vm provider: " followed by the name, and the action
    is not called; when it is registered, the action is called once, on
    the provider found; an error of the action comes back wrapped with
    "in provider: " and the name, with the same cause; without error the
    result is nil. *)
Theorem ForProvider_cases {S : Type} (named : string)
    (action : P → S → option error * S) (log : list (P * option error)) (s : S) :
  (Providers !! named = None →
     ForProvider Providers named (logged action) (log, s)
     = (Some (New ("unknown vm provider: " +:+ named)), (log, s)))
  ∧ (∀ p e s', Providers !! named = Some p → action p s = (Some e, s') →
       ForProvider Providers named (logged action) (log, s)
       = (Some (Wrap e ("in provider: " +:+ named)), (log ++ [(p, Some e)], s'))
       ∧ Cause (Wrap e ("in provider: " +:+ named)) = Cause e
       ∧ Error (Wrap e ("in provider: " +:+ named))
         = "in provider: " +:+ named +:+ ": " +:+ Error e)
  ∧ (∀ p s', Providers !! named = Some p → action p s = (None, s') →
       ForProvider Providers named (logged action) (log, s)
       = (None, (log ++ [(p, None)], s'))).
Proof.
  split_and!.
  - apply ForProvider_unknown.
  - intros p e s' Hp Ha. split; [|done].
    eapply ForProvider_failure; [done|]. by apply logged_call.
  - intros p s' Hp Ha.
    eapply ForProvider_success; [done|]. by apply logged_call.
Qed.

(** C4. Over the names [A; B; C], where the action succeeds for the
    provider of A and then fails for the provider of B,
    [ProvidersSequential] calls the action for A, then for B, never for
    C, and returns the error of B wrapped with "in provider: " and the
    name B. *)
Theorem ProvidersSequential_fail_fast {S : Type} (A B C : string) (pA pB : P)
    (action : P → S → option error * S) (log : list (P * option error))
    (s s1 s2 : S) (e : error) :
  Providers !! A = Some pA → Providers !! B = Some pB →
  action pA s = (None, s1) → action pB s1 = (Some e, s2) →
  ProvidersSequential Providers [A; B; C] (logged action) (log, s)
  = (Some (Wrap e ("in provider: " +:+ B)),
     (log ++ [(pA, None); (pB, Some e)], s2)).
Proof.
  intros HA HB Ha Hb. cbn [ProvidersSequential].
  rewrite (ForProvider_success A (logged action) (log, s) pA
             (log ++ [(pA, None)], s1) HA (logged_call _ _ _ _ _ _ Ha)).
  rewrite (ForProvider_failure B (logged action) (log ++ [(pA, None)], s1) pB e
             ((log ++ [(pA, None)]) ++ [(pB, Some e)], s2) HB
             (logged_call _ _ _ _ _ _ Hb)).
  by rewrite <- app_assoc.
Qed.

(** ** [FindActiveAccount] *)

Lemma nonempty_length (a : string) : 0 < String.length a ↔ a ≠ "".
Proof. destruct a; simpl; split; (done || lia || congruence). Qed.

Lemma ProvidersSequential_poll (kps : list (string * P)) :
  (∀ k p, (k, p) ∈ kps → Providers !! k = Some p) →
  ∀ pa w answers w',
    poll kps.*2 w = (Some answers, w') →
    ProvidersSequential Providers kps.*1 askAccount (pa, w)
    = (None, (foldl keep_answer pa answers, w'))
    ∧ answers.*1 = Provider.Name <$> kps.*2.
Proof.
  induction kps as [|[k p] kps IH]; intros Hreg pa w answers w' Hpoll.
  - simpl in *. by simplify_eq.
  - rewrite !fmap_cons. rewrite fmap_cons in Hpoll.
    cbn [poll fst snd] in Hpoll. cbn [ProvidersSequential fst snd].
    unfold ForProvider. rewrite (Hreg k p) by left.
    unfold askAccount at 1. cbn [snd fst].
    destruct (Provider.FindActiveAccount p w) as [[acct [e|]] w1]; [by simplify_eq|].
    destruct (poll kps.*2 w1) as [[rest|] w2] eqn:Hrest;
      simpl in Hpoll; simplify_eq.
    destruct (IH (λ k' p' H, Hreg k' p' (list_elem_of_further _ _ _ H))
                 (<[Provider.Name p := acct]> pa) w1 rest w' Hrest) as [-> Hn].
    split; [done|]. by rewrite fmap_cons, Hn.
Qed.

Lemma foldl_record_list_to_map (answers : list (string * string)) :
  NoDup answers.*1 → foldl keep_answer ∅ answers = list_to_map answers.
Proof.
  induction answers as [|[k a] answers IH] using rev_ind; [done|].
  rewrite fmap_app, NoDup_app. intros (Hnd & Hk & _).
  rewrite foldl_app. simpl. rewrite IH by done.
  unfold keep_answer. simpl. symmetry. apply list_to_map_snoc.
  intros Hin. apply (Hk k Hin). simpl. left.
Qed.

Lemma countAccounts_spec (entries : list (string * string)) :
  dom (countAccounts entries).1 = votes entries
  ∧ ((countAccounts entries).1 = ∅ ∨ (countAccounts entries).2 ∈ votes entries).
Proof.
  unfold countAccounts, votes.
  induction entries as [|[k a] entries [IH1 IH2]] using rev_ind.
  - simpl. split; [by rewrite dom_empty_L|by left].
  - rewrite foldl_app, fmap_app, filter_app, list_to_set_app_L.
    cbn [foldl fmap list_fmap snd].
    case_bool_decide as Ha; rewrite nonempty_length in Ha.
    + rewrite filter_cons_True by done. rewrite filter_nil.
      cbn [fst snd list_to_set].
      rewrite dom_insert_L, IH1, (right_id_L ∅ (∪)).
      split; [apply (comm_L (∪))|right].
      apply elem_of_union_r. by apply elem_of_singleton.
    + rewrite filter_cons_False by (by intros ?). rewrite filter_nil.
      cbn [list_to_set]. rewrite (right_id_L ∅ (∪)). done.
Qed.

Lemma votes_nonempty answers a : a ∈ votes answers → a ≠ "".
Proof.
  unfold votes. rewrite elem_of_list_to_set, list_elem_of_filter. tauto.
Qed.

Lemma votes_perm l1 l2 : l1 ≡ₚ l2 → votes l1 = votes l2.
Proof. intros H. unfold votes. by rewrite H. Qed.

Lemma range_map_perm `{Countable K} {V} (o : MapOrder) (m : gmap K V) :
  range_map o m ≡ₚ map_to_list m.
Proof. apply shuffle_perm. Qed.

Lemma range_map_lookup (o : MapOrder) k p :
  (k, p) ∈ range_map o Providers → Providers !! k = Some p.
Proof. rewrite range_map_perm. apply elem_of_map_to_list. Qed.

Lemma answers_NoDup (o : MapOrder) (answers : list (string * string)) :
  names_distinct Providers →
  answers.*1 = Provider.Name <$> (range_map o Providers).*2 →
  NoDup answers.*1.
Proof.
  intros Hd ->. rewrite <- list_fmap_compose.
  apply NoDup_fmap_2_strong.
  - intros [k1 p1] [k2 p2] H1%range_map_lookup H2%range_map_lookup Hn.
    simpl in Hn. assert (k1 = k2) by eauto. by simplify_eq.
  - apply (NoDup_fmap_1 (fst : string * P → string)).
    rewrite range_map_perm. apply NoDup_fst_map_to_list.
Qed.

(** What the resolution computes when every provider answers. *)
Lemma FindActiveAccount_resolve (o1 o2 : MapOrder) (g : Globals) answers w' :
  cachedActiveAccount g = "" →
  names_distinct Providers →
  poll (range_map o1 Providers).*2 (world g) = (Some answers, w') →
  ∃ (counts : gmap string Z) (lastAccount : string),
    dom counts = votes answers
    ∧ (counts = ∅ ∨ lastAccount ∈ votes answers)
    ∧ FindActiveAccount Providers fmt_map o1 o2 g
      = match size counts with
        | 0 => (("", Some (New "no Providers returned any active accounts")),
                mkGlobals "" w')
        | 1 => ((lastAccount, None), mkGlobals lastAccount w')
        | _ => (("", Some (New ("multiple active Provider accounts detected: "
                                +:+ fmt_map (list_to_map answers)))),
                mkGlobals "" w')
        end.
Proof.
  intros Hc Hd Hpoll. unfold FindActiveAccount.
  rewrite bool_decide_eq_false_2 by (rewrite Hc; simpl; lia). rewrite Hc.
  unfold AllProviderNames.
  destruct (ProvidersSequential_poll (range_map o1 Providers)
              (range_map_lookup o1) ∅ (world g) answers w' Hpoll) as [-> Hn].
  pose proof (answers_NoDup o1 answers Hd Hn) as Hnd.
  rewrite foldl_record_list_to_map by done.
  destruct (countAccounts_spec (range_map o2 (list_to_map answers))) as [H1 H2].
  assert (votes (range_map o2 (list_to_map answers)) = votes answers) as Hv.
  { apply votes_perm. rewrite range_map_perm. by apply map_to_list_to_map. }
  rewrite Hv in H1, H2.
  destruct (countAccounts _) as [counts lastAccount]. simpl in H1, H2.
  exists counts, lastAccount. split_and!; [done..|].
  by destruct (size counts) as [|[|n]].
Qed.

(** C2. When the cache is empty and every registered provider answers
    without error, [FindActiveAccount] goes by the distinct non-empty
    accounts among the answers: with none it fails with "no Providers
    returned any active accounts"; with exactly one it returns it (and
    stores it); with two or more it fails with "multiple active Provider
    accounts detected: " followed by the map from provider name to
    answer.  The registered providers have distinct names, as the
    interface asks. *)
Theorem FindActiveAccount_consensus (o1 o2 : MapOrder) (g : Globals) answers w' :
  cachedActiveAccount g = "" →
  names_distinct Providers →
  poll (range_map o1 Providers).*2 (world g) = (Some answers, w') →
  (size (votes answers) = 0 →
     FindActiveAccount Providers fmt_map o1 o2 g
     = (("", Some (New "no Providers returned any active accounts")),
        mkGlobals "" w'))
  ∧ (∀ a, votes answers = {[a]} →
       FindActiveAccount Providers fmt_map o1 o2 g = ((a, None), mkGlobals a w'))
  ∧ (2 ≤ size (votes answers) →
       FindActiveAccount Providers fmt_map o1 o2 g
       = (("", Some (New ("multiple active Provider accounts detected: "
                          +:+ fmt_map (list_to_map answers)))),
          mkGlobals "" w')).
Proof.
  intros Hc Hd Hpoll.
  destruct (FindActiveAccount_resolve o1 o2 g answers w' Hc Hd Hpoll)
    as (counts & lastAccount & Hdom & Hlast & ->).
  rewrite <- Hdom, size_dom. split_and!.
  - by intros ->.
  - intros a Ha.
    assert (size counts = 1) as ->.
    { by rewrite <- (size_dom (D := gset string)), Ha, size_singleton. }
    destruct Hlast as [->|Hl].
    + rewrite dom_empty_L in Ha. set_solver.
    + rewrite <- Hdom, Ha in Hl. apply elem_of_singleton in Hl. by subst.
  - intros Hs. by destruct (size counts) as [|[|n]]; [lia..|].
Qed.

Lemma FindActiveAccount_cached (o1 o2 : MapOrder) (g : Globals) :
  cachedActiveAccount g ≠ "" →
  FindActiveAccount Providers fmt_map o1 o2 g = ((cachedActiveAccount g, None), g).
Proof.
  intros Hc. unfold FindActiveAccount.
  by rewrite bool_decide_eq_true_2 by by apply nonempty_length.
Qed.

(** Every outcome of a call: the cache answers; a provider fails; no
    vote; one account; several. *)
Lemma FindActiveAccount_outcomes (o1 o2 : MapOrder) (g : Globals) :
  let asked := ProvidersSequential Providers (AllProviderNames Providers o1)
                 askAccount (∅, world g) in
  (cachedActiveAccount g ≠ ""
   ∧ FindActiveAccount Providers fmt_map o1 o2 g = ((cachedActiveAccount g, None), g))
  ∨ (cachedActiveAccount g = ""
     ∧ ((∃ e, FindActiveAccount Providers fmt_map o1 o2 g
              = (("", Some e), mkGlobals "" asked.2.2))
        ∨ (∃ a, a ≠ ""
              ∧ FindActiveAccount Providers fmt_map o1 o2 g
                = ((a, None), mkGlobals a asked.2.2)))).
Proof.
  intros asked. destruct (decide (cachedActiveAccount g = "")) as [Hc|Hc].
  - right. split; [done|]. unfold FindActiveAccount.
    rewrite bool_decide_eq_false_2 by (rewrite Hc; simpl; lia). rewrite Hc.
    subst asked. destruct (ProvidersSequential _ _ _ _) as [[e|] [pa w]].
    { left. by eexists. }
    destruct (countAccounts_spec (range_map o2 pa)) as [H1 H2].
    destruct (countAccounts _) as [counts lastAccount]. simpl in H1, H2.
    destruct (size counts) as [|[|n]] eqn:Hsize.
    + left. by eexists.
    + right. exists lastAccount. split; [|done].
      destruct H2 as [->|H2]; [by rewrite map_size_empty in Hsize|].
      by eapply votes_nonempty.
    + left. by eexists.
  - left. split; [done|]. by apply FindActiveAccount_cached.
Qed.

Lemma FindActiveAccount_success (o1 o2 : MapOrder) (g g' : Globals) a :
  FindActiveAccount Providers fmt_map o1 o2 g = ((a, None), g') →
  a ≠ "" ∧ cachedActiveAccount g' = a.
Proof.
  intros Hcall.
  destruct (FindActiveAccount_outcomes o1 o2 g)
    as [[Hc H1]|[Hc [[e H1]|(a' & Ha' & H1)]]];
    rewrite H1 in Hcall; by simplify_eq.
Qed.

Lemma FindActiveAccount_cache_step (o1 o2 : MapOrder) (g : Globals) :
  let g' := (FindActiveAccount Providers fmt_map o1 o2 g).2 in
  (cachedActiveAccount g = "" ∨ cachedActiveAccount g' = cachedActiveAccount g).
Proof.
  intros g'. subst g'.
  destruct (FindActiveAccount_outcomes o1 o2 g)
    as [[Hc H1]|[Hc _]]; [right; by rewrite H1|by left].
Qed.

Lemma cache_history (cs : list (MapOrder * MapOrder * (W → W))) :
  ∀ g : Globals,
    ∃ n m a, cachedActiveAccount <$> (g :: calls Providers fmt_map cs g)
             = replicate n "" ++ replicate m a.
Proof.
  induction cs as [|[[o1 o2] between] cs IH]; intros g.
  - exists 0, 1, (cachedActiveAccount g). done.
  - cbn [calls]. set (g1 := (FindActiveAccount Providers fmt_map o1 o2 g).2).
    destruct (IH (mkGlobals (cachedActiveAccount g1) (between (world g1))))
      as (n & m & a & Hh).
    rewrite fmap_cons in Hh. cbn [cachedActiveAccount] in Hh.
    rewrite fmap_cons, fmap_cons, Hh.
    destruct (FindActiveAccount_cache_step o1 o2 g) as [Hc|Hc].
    + rewrite Hc. by exists (S n), m, a.
    + fold g1 in Hc. destruct (decide (cachedActiveAccount g = "")) as [He|He].
      { rewrite He. by exists (S n), m, a. }
      destruct n as [|n]; [|simpl in Hh; congruence].
      destruct m as [|m]; [done|]. simpl in Hh.
      exists 0, (S (S m)), a. simpl. f_equal. congruence.
Qed.

(** C9. The cache is written at most once, and only by a resolution that
    finds one account.  A call that returns an error found the cache
    empty and leaves it empty, and it has asked the providers (the world
    is what [ProvidersSequential] over all the names makes of it), as the
    next call will: with an empty cache every call does.  A call that
    finds the cache filled changes nothing.  Over any number of calls,
    whatever happens to the world in between, the values of the cache
    are a run of empty strings followed by a run of one account. *)
Theorem cachedActiveAccount_written_once :
  (∀ o1 o2 (g g' : Globals) r e,
     FindActiveAccount Providers fmt_map o1 o2 g = ((r, Some e), g') →
     cachedActiveAccount g = "" ∧ cachedActiveAccount g' = ""
     ∧ world g' = (ProvidersSequential Providers (AllProviderNames Providers o1)
                     askAccount (∅, world g)).2.2)
  ∧ (∀ o1 o2 (g : Globals),
       cachedActiveAccount g = "" →
       world (FindActiveAccount Providers fmt_map o1 o2 g).2
       = (ProvidersSequential Providers (AllProviderNames Providers o1)
            askAccount (∅, world g)).2.2)
  ∧ (∀ o1 o2 (g : Globals),
       cachedActiveAccount g ≠ "" →
       (FindActiveAccount Providers fmt_map o1 o2 g).2 = g)
  ∧ (∀ cs (g : Globals),
       ∃ n m a, cachedActiveAccount <$> (g :: calls Providers fmt_map cs g)
                = replicate n "" ++ replicate m a).
Proof.
  split_and!.
  - intros o1 o2 g g' r e Hcall.
    destruct (FindActiveAccount_outcomes o1 o2 g)
      as [[Hc H1]|[Hc [[e' H1]|(a' & Ha' & H1)]]];
      rewrite H1 in Hcall; by simplify_eq.
  - intros o1 o2 g Hc.
    destruct (FindActiveAccount_outcomes o1 o2 g)
      as [[Hc' H1]|[_ [[e' H1]|(a' & Ha' & H1)]]]; [done|by rewrite H1..].
  - intros o1 o2 g Hc. by rewrite FindActiveAccount_cached.
  - apply cache_history.
Qed.


Lemma names_distinct_keys :
  (∀ k p, Providers !! k = Some p → Provider.Name p = k) →
  names_distinct Providers.
Proof.
  intros Hk k1 k2 p1 p2 H1 H2 Hn.
  by rewrite <- (Hk k1 p1 H1), <- (Hk k2 p2 H2).
Qed.

End dispatch_facts.

(** C3. After a call of [FindActiveAccount] that returned an account, a
    second call returns the same account, which is not empty, and leaves
    the globals as they are: the count of the calls of the providers'
    [FindActiveAccount], kept in the world, has not moved. *)
Theorem FindActiveAccount_memoized {W P : Type} (I : Provider.t W P)
    (Providers : gmap string P) (fmt_map : gmap string string → string)
    (o1 o2 o1' o2' : MapOrder) (g g' : Globals) (a : string) :
  FindActiveAccount (Prov := counting I) Providers fmt_map o1 o2 g = ((a, None), g') →
  a ≠ ""
  ∧ FindActiveAccount (Prov := counting I) Providers fmt_map o1' o2' g'
    = ((a, None), g')
  ∧ (world (FindActiveAccount (Prov := counting I) Providers fmt_map o1' o2' g').2).1
    = (world g').1.
Proof.
  intros Hcall.
  destruct (FindActiveAccount_success (Prov := counting I) _ _ _ _ _ _ _ Hcall)
    as [Ha Hc].
  assert (FindActiveAccount (Prov := counting I) Providers fmt_map o1' o2' g'
          = ((a, None), g')) as H2.
  { rewrite (FindActiveAccount_cached (Prov := counting I)) by by rewrite Hc.
    by rewrite Hc. }
  by rewrite H2.
Qed.

(** ** The errgroup machine *)

Ltac group_fields :=
  cbn [errgroup.todo errgroup.loopvar errgroup.tasks errgroup.err
       errgroup.store errgroup.stale] in *.

Module errgroup_facts.
Import errgroup.
Section facts.
Context {Env PC S : Type}.
Variable body : Env → PC → S → (PC + option error) * S.
Variable entry : PC.
Variable lv : LoopVar.
Variable its : list Env.

Abbreviation gstep := (errgroup.step body entry lv).
Abbreviation grun := (errgroup.run body entry lv).
Abbreviation gstart := (errgroup.start (Env := Env) (PC := PC) (S := S)).
Abbreviation G := (errgroup.Group (Env := Env) (PC := PC) (S := S)).

Lemma run_snoc sched pk g : grun (sched ++ [pk]) g = gstep (grun sched g) pk.
Proof. unfold errgroup.run. by rewrite foldl_snoc. Qed.

Lemma run_app sched1 sched2 g : grun (sched1 ++ sched2) g = grun sched2 (grun sched1 g).
Proof. unfold errgroup.run. by rewrite foldl_app. Qed.

Lemma fst_insert (ts : list (Env * option PC)) i own pc pc' :
  ts !! i = Some (own, pc) → (<[i := (own, pc')]> ts).*1 = ts.*1.
Proof.
  intros Hi. rewrite list_fmap_insert. apply list_insert_id.
  by rewrite list_lookup_fmap, Hi.
Qed.

Lemma wf_start s : wf its (gstart its s).
Proof. by split. Qed.

Lemma wf_step g pk : wf its g → wf its (gstep g pk).
Proof.
  intros Hwf. pose proof Hwf as [Ha Hb]. destruct pk as [|i]; cbn [errgroup.step].
  - destruct (todo g) as [|x rest] eqn:Htodo; [done|].
    split; group_fields.
    + by rewrite fmap_app, <- app_assoc.
    + by rewrite fmap_snoc, last_snoc.
  - destruct (tasks g !! i) as [[own [pc|]]|] eqn:Hi; [|done..].
    destruct (body _ _ _) as [[pc'|e] s'];
      split; group_fields; by rewrite (fst_insert _ _ _ _ _ Hi).
Qed.

Lemma wf_run sched s : wf its (grun sched (gstart its s)).
Proof.
  induction sched as [|pk sched IH] using rev_ind; [apply wf_start|].
  rewrite run_snoc. by apply wf_step.
Qed.

Lemma stale_step g pk : stale g = true → stale (gstep g pk) = true.
Proof.
  intros Hs. destruct pk as [|i]; cbn [errgroup.step].
  - by destruct (todo g).
  - destruct (tasks g !! i) as [[own [pc|]]|]; [|done..].
    destruct (body _ _ _) as [[pc'|e] s']; group_fields; by rewrite Hs.
Qed.

(** A goroutine that does not read late reads its own variables. *)
Lemma captured_own (g : G) i own pc :
  wf its g → tasks g !! i = Some (own, pc) →
  reads_later lv g i = false → captured lv g own = own.
Proof.
  intros [_ Hb] Hi Hr. unfold captured, reads_later in *.
  destruct lv; [|done].
  apply negb_false_iff, Nat.eqb_eq in Hr.
  rewrite Hb, last_lookup, length_fmap, <- Hr. simpl.
  by rewrite list_lookup_fmap, Hi.
Qed.

(** Induction over the executions without late reads. *)
Lemma run_invariant (I : G → Prop) s :
  I (gstart its s) →
  (∀ g pk, wf its g → I g → stale (gstep g pk) = false → I (gstep g pk)) →
  ∀ sched, stale (grun sched (gstart its s)) = false → I (grun sched (gstart its s)).
Proof.
  intros Hstart Hstep sched.
  induction sched as [|pk sched IH] using rev_ind; intros Hs; [done|].
  rewrite run_snoc in *. apply Hstep; [apply wf_run| |done].
  apply IH. destruct (stale (grun sched _)) eqn:H; [|done].
  by rewrite stale_step in Hs.
Qed.

Lemma finished_quiet (g : G) : finished g = true ↔ todo g = [] ∧ quiet g.
Proof.
  unfold finished, quiet. destruct (todo g); [|by split; [|intros []]].
  rewrite forallb_forall, Forall_forall. split.
  - intros H. split; [done|]. intros t Ht.
    specialize (H t (proj1 (list_elem_of_In _ _) Ht)).
    by apply bool_decide_eq_true_1 in H.
  - intros [_ H] t Ht. apply bool_decide_eq_true_2, H. by apply list_elem_of_In.
Qed.

(** If a goroutine run right after its [g.Go] returns within [steps]
    steps, the eager schedule ends the group, without late reads. *)
Lemma eager_finishes steps :
  (∀ g x rest, todo g = x :: rest → quiet g →
     let g1 := grun (Loop :: replicate steps (Go (length (tasks g)))) g in
     todo g1 = rest ∧ quiet g1 ∧ length (tasks g1) = Datatypes.S (length (tasks g))
     ∧ stale g1 = stale g) →
  ∀ s, let g := grun (eager steps (length its)) (gstart its s) in
       finished g = true ∧ stale g = false.
Proof.
  intros Hone s. unfold eager.
  assert (∀ rest g, todo g = rest → quiet g →
            let g' := grun (i ← seq (length (tasks g)) (length rest);
                           Loop :: replicate steps (Go i)) g in
            finished g' = true ∧ stale g' = stale g) as Hall.
  { induction rest as [|x rest IH]; intros g Htodo Hq.
    - simpl. by rewrite finished_quiet.
    - cbn [length seq]. rewrite bind_cons, run_app.
      destruct (Hone g x rest Htodo Hq) as (Ht & Hq1 & Hl & Hs).
      specialize (IH _ Ht Hq1). rewrite Hl in IH. simpl in IH.
      destruct IH as [IH1 IH2]. simpl. split; [done|]. by rewrite IH2. }
  apply (Hall its (gstart its s)); [done|constructor].
Qed.
End facts.
End errgroup_facts.

(** ** [FanOut] *)

Lemma omap_insert_perm {A B} (f : A → option B) (l : list A) i x y :
  l !! i = Some x → f x = None →
  omap f (<[i := y]> l) ≡ₚ option_list (f y) ++ omap f l.
Proof.
  intros Hi Hx. rewrite insert_take_drop by by eapply lookup_lt_Some.
  rewrite <- (take_drop_middle l i x Hi) at 3.
  rewrite !omap_app. cbn [omap list_omap]. rewrite Hx.
  destruct (f y); simpl; [|done].
  by rewrite Permutation_middle.
Qed.

Section collate_facts.
Lemma collate_snoc (l : List) vm :
  collate (l ++ [vm])
  = <[Provider vm := default [] (collate l !! Provider vm) ++ [vm]]> (collate l).
Proof. unfold collate. by rewrite foldl_snoc. Qed.

Lemma filter_none (l : List) name :
  name ∉ Provider <$> l → filter (λ vm, Provider vm = name) l = [].
Proof.
  intros Hn. induction l as [|vm l IH]; [done|].
  rewrite fmap_cons, not_elem_of_cons in Hn. destruct Hn as [Hne Hn].
  rewrite filter_cons_False by (by intros ?). by apply IH.
Qed.

Lemma collate_lookup (l : List) (name : string) :
  collate l !! name
  = if decide (name ∈ Provider <$> l)
    then Some (filter (λ vm, Provider vm = name) l) else None.
Proof.
  induction l as [|vm l IH] using rev_ind.
  - rewrite decide_False; [done|]. apply not_elem_of_nil.
  - rewrite collate_snoc, fmap_app, filter_app. cbn [fmap list_fmap].
    destruct (decide (Provider vm = name)) as [<-|Hne].
    + rewrite lookup_insert_eq, IH, filter_cons_True, filter_nil by done.
      rewrite (decide_True (P := _ ∈ _ ++ _)) by (apply elem_of_app; right; left).
      case_decide as Hin; [done|]. simpl. by rewrite filter_none.
    + rewrite lookup_insert_ne, IH, filter_cons_False, filter_nil, app_nil_r by done.
      apply decide_ext. rewrite elem_of_app, list_elem_of_singleton.
      split; [by left|intros [?|?]; [done|congruence]].
Qed.

Lemma collate_groups (l : List) : map_to_list (collate l) ≡ₚ groups l.
Proof.
  apply NoDup_Permutation.
  - apply NoDup_map_to_list.
  - unfold groups. apply NoDup_fmap_2; [|apply NoDup_remove_dups].
    by intros x y [=].
  - intros [name vms]. unfold groups. split.
    + intros H%elem_of_map_to_list. rewrite collate_lookup in H.
      case_decide; [|done]. injection H as <-.
      apply list_elem_of_fmap. exists name.
      split; [done|]. by rewrite elem_of_remove_dups.
    + intros (name' & Heq & Hin)%list_elem_of_fmap.
      rewrite elem_of_remove_dups in Hin. injection Heq as -> ->.
      apply elem_of_map_to_list. by rewrite collate_lookup, decide_True.
Qed.
End collate_facts.


Section FanOut_facts.
Context {P S : Type}.
Variable Providers : gmap string P.
Variable action : P → List → S → option error * S.
Variable lv : LoopVar.
Variable its : list (string * List).

Abbreviation step :=
  (errgroup.step (FanOut_closure Providers (logged2 action)) AtLookup lv).
Abbreviation run :=
  (errgroup.run (FanOut_closure Providers (logged2 action)) AtLookup lv).
Abbreviation Inv := (FanOut_inv Providers (S := S) its).

Lemma FanOut_inv_start s :
  Inv (errgroup.start its ([], s)).
Proof. split; simpl; done. Qed.

Lemma FanOut_inv_step g pk :
  errgroup.wf its g → Inv g → errgroup.stale (step g pk) = false →
  Inv (step g pk).
Proof.
  intros Hwf HI Hs. pose proof HI as [Hc Hd He]. pose proof Hwf as [Ha _].
  destruct pk as [|i]; cbn [errgroup.step] in *.
  - destruct (errgroup.todo g) as [|x rest] eqn:Htodo; [done|].
    split; group_fields.
    + apply Forall_app. split; [done|]. by constructor.
    + by rewrite omap_app, app_nil_r.
    + destruct (errgroup.err g); [done|].
      apply Forall_app. split; [done|]. by constructor.
  - destruct (errgroup.tasks g !! i) as [[own [pc|]]|] eqn:Hi; [|done..].
    destruct (FanOut_closure _ _ _ _ _) as [r s'] eqn:Hbody.
    assert (errgroup.reads_later lv g i = false) as Hr.
    { destruct r; group_fields; by apply orb_false_iff in Hs as [_ ?]. }
    rewrite (errgroup_facts.captured_own lv its g i own (Some pc) Hwf Hi Hr)
      in Hbody.
    pose proof (proj1 (Forall_lookup _ _) Hc i _ Hi) as Hpos.
    unfold position_ok in Hpos. simpl in Hpos.
    destruct pc as [| |p]; simpl in Hbody.
    + (* the lookup *)
      assert (∃ pc', r = inl pc' ∧ s' = errgroup.store g
                     ∧ position_ok Providers (own, Some pc')) as (pc' & -> & -> & Hok).
      { unfold position_ok. destruct (Providers !! own.1) eqn:Hl; simplify_eq; eauto. }
      split; group_fields; try done.
      * by apply Forall_insert.
      * by rewrite (omap_insert_perm _ _ _ (own, Some AtLookup)).
      * destruct (errgroup.err g); [done|]. by apply Forall_insert.
    + (* the unknown name *)
      injection Hbody as <- <-. split; group_fields; try done.
      * by apply Forall_insert.
      * rewrite (omap_insert_perm _ _ _ (own, Some AtUnknown)) by done.
        assert (call_made Providers (own, None) = None) as ->; [|done].
        unfold call_made, resolve. simpl. by rewrite Hpos.
      * destruct (errgroup.err g); simpl; [done|].
        left. exists own.1. split_and!; [|done..].
        rewrite <- Ha, fmap_app, elem_of_app. left.
        apply list_elem_of_fmap. exists own. split; [done|].
        apply list_elem_of_fmap. exists (own, Some AtUnknown).
        split; [done|]. by eapply list_elem_of_lookup_2.
    + (* the call *)
      unfold logged2, logged in Hbody. simpl in Hbody.
      destruct (action p own.2 (errgroup.store g).2) as [e s''] eqn:Hact.
      injection Hbody as <- <-. split; group_fields; try done.
      * by apply Forall_insert.
      * rewrite (omap_insert_perm _ _ _ (own, Some (AtAction p))) by done.
        assert (call_made Providers (own, None) = Some (p, own.2)) as ->.
        { unfold call_made, resolve. simpl. by rewrite Hpos. }
        cbn [fst snd]. rewrite fmap_snoc, <- Permutation_cons_append. simpl.
        by apply Permutation_skip.
      * destruct (errgroup.err g) as [e0|]; simpl.
        { destruct He as [?|[call Hcall]]; [by left|right].
          exists call. apply elem_of_app. by left. }
        destruct e as [e|]; simpl.
        { right. exists (p, own.2). apply elem_of_app. right. by left. }
        apply Forall_insert; [done|]. simpl. intros _. by rewrite Hpos.
Qed.

Lemma FanOut_inv_run sched s :
  errgroup.stale (run sched (errgroup.start its ([], s))) = false →
  Inv (run sched (errgroup.start its ([], s))).
Proof.
  apply (errgroup_facts.run_invariant _ _ lv its Inv);
    [apply FanOut_inv_start|apply FanOut_inv_step].
Qed.

Lemma omap_call_made_finished (ts : list ((string * List) * option (@FanOutPC P))) :
  Forall (λ t, t.2 = None) ts →
  omap (call_made Providers) ts = omap (resolve Providers) ts.*1.
Proof.
  induction 1 as [|[own pc] ts Hpc _ IH]; [done|].
  simpl in Hpc. subst pc. rewrite fmap_cons. cbn [omap list_omap].
  unfold call_made at 1. simpl. by rewrite IH.
Qed.

(** At the end of an execution without late reads: the calls made are
    those of the iterations, and the error is one of theirs. *)
Lemma FanOut_inv_finished g :
  errgroup.wf its g → Inv g → errgroup.finished g = true →
  (errgroup.store g).1.*1 ≡ₚ omap (resolve Providers) its
  ∧ match errgroup.err g with
    | Some e => unknown_provider Providers its e
                ∨ ∃ call, (call, Some e) ∈ (errgroup.store g).1
    | None => Forall (λ name, is_Some (Providers !! name)) its.*1
    end.
Proof.
  intros [Ha _] [Hc Hd He] [Htodo Hdone]%errgroup_facts.finished_quiet.
  rewrite Htodo, app_nil_r in Ha. split.
  - by rewrite Hd, omap_call_made_finished, Ha.
  - destruct (errgroup.err g); [done|]. rewrite <- Ha.
    apply Forall_fmap, Forall_fmap. apply Forall_forall. intros t Ht.
    unfold errgroup.quiet in Hdone.
    rewrite Forall_forall in He, Hdone. simpl. by apply He, Hdone.
Qed.

(** The closure of [FanOut] returns in two steps. *)
Lemma FanOut_two_steps g x rest :
  errgroup.todo g = x :: rest → errgroup.quiet g →
  let g1 := run (errgroup.Loop
                   :: replicate 2 (errgroup.Go (length (errgroup.tasks g)))) g in
  errgroup.todo g1 = rest ∧ errgroup.quiet g1
  ∧ length (errgroup.tasks g1) = Datatypes.S (length (errgroup.tasks g))
  ∧ errgroup.stale g1 = errgroup.stale g.
Proof.
  intros Htodo Hq. unfold errgroup.quiet in *.
  cbn [replicate errgroup.run foldl errgroup.step]. rewrite Htodo. group_fields.
  rewrite lookup_app_r, Nat.sub_diag by done. cbn [lookup list_lookup].
  assert (errgroup.reads_later lv
            {| errgroup.todo := rest; errgroup.loopvar := Some x;
               errgroup.tasks := errgroup.tasks g ++ [(x, Some AtLookup)];
               errgroup.err := errgroup.err g; errgroup.store := errgroup.store g;
               errgroup.stale := errgroup.stale g |}
            (length (errgroup.tasks g)) = false) as Hr.
  { unfold errgroup.reads_later. destruct lv; [|done]. group_fields.
    rewrite length_app. simpl. rewrite Nat.add_1_r, Nat.eqb_refl. done. }
  rewrite Hr, orb_false_r.
  assert (∀ t t' : (string * List) * option (@FanOutPC P),
            <[length (errgroup.tasks g) := t']> (errgroup.tasks g ++ [t])
            = errgroup.tasks g ++ [t']) as Hins.
  { intros t t'. rewrite insert_app_r_alt, Nat.sub_diag by done. done. }
  cbn [FanOut_closure].
  destruct (Providers !! _) as [p|]; group_fields; rewrite Hins;
    rewrite lookup_app_r, Nat.sub_diag by done; cbn [lookup list_lookup].
  - assert (errgroup.reads_later lv
            {| errgroup.todo := rest; errgroup.loopvar := Some x;
               errgroup.tasks := errgroup.tasks g ++ [(x, Some (AtAction p))];
               errgroup.err := errgroup.err g; errgroup.store := errgroup.store g;
               errgroup.stale := errgroup.stale g |}
            (length (errgroup.tasks g)) = false) as Hr2.
    { unfold errgroup.reads_later. destruct lv; [|done]. group_fields.
      rewrite length_app. simpl. rewrite Nat.add_1_r, Nat.eqb_refl. done. }
    rewrite Hr2, orb_false_r. cbn [FanOut_closure].
    destruct (logged2 action _ _ _) as [e s']. group_fields. rewrite Hins.
    split_and!; [done| |by rewrite length_app, Nat.add_1_r|done].
    apply Forall_app. split; [done|by constructor].
  - assert (errgroup.reads_later lv
            {| errgroup.todo := rest; errgroup.loopvar := Some x;
               errgroup.tasks := errgroup.tasks g ++ [(x, Some AtUnknown)];
               errgroup.err := errgroup.err g; errgroup.store := errgroup.store g;
               errgroup.stale := errgroup.stale g |}
            (length (errgroup.tasks g)) = false) as Hr2.
    { unfold errgroup.reads_later. destruct lv; [|done]. group_fields.
      rewrite length_app. simpl. rewrite Nat.add_1_r, Nat.eqb_refl. done. }
    rewrite Hr2, orb_false_r. cbn [FanOut_closure]. group_fields. rewrite Hins.
    split_and!; [done| |by rewrite length_app, Nat.add_1_r|done].
    apply Forall_app. split; [done|by constructor].
Qed.
End FanOut_facts.

Section FanOut_theorems.
Context {P S : Type}.
Variable Providers : gmap string P.
Variable action : P → List → S → option error * S.
Variable lv : LoopVar.
Variable o : MapOrder.
Variable vms : List.

Lemma range_collate_groups : range_map o (collate vms) ≡ₚ groups vms.
Proof. unfold range_map. by rewrite shuffle_perm, collate_groups. Qed.

Lemma groups_names : (groups vms).*1 = remove_dups (Provider <$> vms).
Proof.
  unfold groups. induction (remove_dups (Provider <$> vms)) as [|x l IH]; [done|].
  rewrite !fmap_cons. by rewrite IH.
Qed.

(** [FanOut] in an execution without late reads: one call for each
    group of a registered provider, with the provider and the VMs of the
    group; the error, if any, is that of an unknown name or of a call. *)
Lemma FanOut_without_late_reads sched s err log s' :
  FanOut Providers lv o sched vms (logged2 action) ([], s) = Some (err, (log, s')) →
  FanOut_reads_late Providers lv o sched vms (logged2 action) ([], s) = false →
  log.*1 ≡ₚ omap (resolve Providers) (groups vms)
  ∧ match err with
    | Some e =>
        (∃ name, name ∈ Provider <$> vms ∧ Providers !! name = None
                 ∧ e = New ("unknown provider name: " +:+ name))
        ∨ ∃ call, (call, Some e) ∈ log
    | None => ∀ name, name ∈ Provider <$> vms → is_Some (Providers !! name)
    end.
Proof.
  unfold FanOut, FanOut_reads_late, errgroup.Wait.
  set (its := range_map o (collate vms)).
  set (g := errgroup.run _ _ _ _ _).
  destruct (errgroup.finished g) eqn:Hfin; [|done].
  intros [= <- Hstore] Hstale.
  pose proof (FanOut_inv_run Providers action lv its sched s Hstale) as HI.
  pose proof (errgroup_facts.wf_run (FanOut_closure Providers (logged2 action))
                AtLookup lv its sched ([], s)) as Hwf.
  destruct (FanOut_inv_finished Providers its g Hwf HI Hfin) as [Hcalls Herr].
  rewrite Hstore in Hcalls, Herr. simpl in Hcalls, Herr.
  assert (∀ name, name ∈ its.*1 ↔ name ∈ Provider <$> vms) as Hnames.
  { intros name. subst its.
    by rewrite range_collate_groups, groups_names, elem_of_remove_dups. }
  split.
  - rewrite Hcalls. subst its. by rewrite range_collate_groups.
  - destruct (errgroup.err g) as [e|].
    + destruct Herr as [(name & Hin & Hreg & ->)|?]; [left|by right].
      exists name. by rewrite <- Hnames.
    + intros name Hin%Hnames. rewrite Forall_forall in Herr. by apply Herr.
Qed.

(** [FanOut] returns: the schedule that runs every goroutine right after
    its [g.Go] ends the group, and without late reads. *)
Lemma FanOut_eager s :
  let sched := errgroup.eager 2 (length (range_map o (collate vms))) in
  is_Some (FanOut Providers lv o sched vms (logged2 action) ([], s))
  ∧ FanOut_reads_late Providers lv o sched vms (logged2 action) ([], s) = false.
Proof.
  intros sched. unfold FanOut, FanOut_reads_late, errgroup.Wait.
  destruct (errgroup_facts.eager_finishes (FanOut_closure Providers (logged2 action))
              AtLookup lv (range_map o (collate vms)) 2
              (FanOut_two_steps Providers action lv) ([], s)) as [Hf Hs].
  fold sched in Hf, Hs. by rewrite Hf.
Qed.

(** C5, as amended.  For a list with a VM whose provider name X is not
    registered: [FanOut] returns (the eager schedule ends it, without
    late reads), and in every execution in which no goroutine reads the
    loop variables of a later iteration it returns an error, which is
    "unknown provider name: " followed by an unregistered name of the
    list, or else the error that the action returned for some group
    (the first error wins); and the action is called once for each
    group of a registered provider, with that provider and the VMs of
    the group, so for every registered name of the list. *)
Theorem FanOut_unknown_provider (s : S) (X : string) :
  X ∈ Provider <$> vms → Providers !! X = None →
  (∃ sched,
     is_Some (FanOut Providers lv o sched vms (logged2 action) ([], s))
     ∧ FanOut_reads_late Providers lv o sched vms (logged2 action) ([], s) = false)
  ∧ ∀ sched err log s',
      FanOut Providers lv o sched vms (logged2 action) ([], s) = Some (err, (log, s')) →
      FanOut_reads_late Providers lv o sched vms (logged2 action) ([], s) = false →
      (∃ e, err = Some e
            ∧ ((∃ name, name ∈ Provider <$> vms ∧ Providers !! name = None
                        ∧ e = New ("unknown provider name: " +:+ name))
               ∨ ∃ call, (call, Some e) ∈ log))
      ∧ log.*1 ≡ₚ omap (resolve Providers) (groups vms)
      ∧ ∀ name p, name ∈ Provider <$> vms → Providers !! name = Some p →
                  (p, filter (λ vm, Provider vm = name) vms) ∈ log.*1.
Proof.
  intros HX Hreg. split; [eexists; apply FanOut_eager|].
  intros sched err log s' Hrun Hlate.
  destruct (FanOut_without_late_reads sched s err log s' Hrun Hlate) as [Hcalls Herr].
  split_and!; [|done|].
  - destruct err as [e|]; [by exists e|].
    destruct (Herr X HX) as [p Hp]. congruence.
  - intros name p Hin Hp. rewrite Hcalls. apply list_elem_of_omap.
    exists (name, filter (λ vm, Provider vm = name) vms). split.
    + unfold groups. apply list_elem_of_fmap. exists name.
      split; [done|]. by rewrite elem_of_remove_dups.
    + unfold resolve. simpl. by rewrite Hp.
Qed.
End FanOut_theorems.

(** ** [ProvidersParallel] *)

Section PP_facts.
Context {P S : Type}.
Variable Providers : gmap string P.
Variable action : P → S → option error * S.
Variable lv : LoopVar.
Variable named : list string.

Abbreviation pstep :=
  (errgroup.step (ProvidersParallel_closure Providers (logged action)) () lv).
Abbreviation prun :=
  (errgroup.run (ProvidersParallel_closure Providers (logged action)) () lv).
Abbreviation PInv := (ProvidersParallel_inv Providers action named).

Lemma ProvidersParallel_inv_step g pk :
  errgroup.wf named g → PInv g → errgroup.stale (pstep g pk) = false →
  PInv (pstep g pk).
Proof.
  intros Hwf HI Hs. pose proof HI as [Hc Hres He]. pose proof Hwf as [Ha _].
  destruct pk as [|i]; cbn [errgroup.step] in *.
  - destruct (errgroup.todo g) as [|x rest] eqn:Htodo; [done|].
    split; group_fields; [by rewrite omap_app, app_nil_r|done|].
    destruct (errgroup.err g); [done|].
    apply Forall_app. split; [done|]. by constructor.
  - destruct (errgroup.tasks g !! i) as [[own [[]|]]|] eqn:Hi; [|done..].
    destruct (ProvidersParallel_closure _ _ _ _ _) as [r s'] eqn:Hbody.
    assert (errgroup.reads_later lv g i = false) as Hr.
    { destruct r; group_fields; by apply orb_false_iff in Hs as [_ ?]. }
    rewrite (errgroup_facts.captured_own lv named g i own (Some ()) Hwf Hi Hr)
      in Hbody.
    assert (own ∈ named) as Hown.
    { rewrite <- Ha, elem_of_app. left.
      apply list_elem_of_fmap. exists (own, Some ()).
      split; [done|]. by eapply list_elem_of_lookup_2. }
    unfold ProvidersParallel_closure, ForProvider in Hbody.
    destruct (Providers !! own) as [p|] eqn:Hp.
    + unfold logged in Hbody. simpl in Hbody.
      destruct (action p (errgroup.store g).2) as [e s''] eqn:Hact.
      assert (r = inr (from_option (λ c, Some (Wrap c ("in provider: " +:+ own))) None e)
              ∧ s' = ((errgroup.store g).1 ++ [(p, e)], s'')) as [-> ->].
      { destruct e; by injection Hbody as <- <-. }
      split; group_fields; cbn [fst snd].
      * rewrite (omap_insert_perm _ _ _ (own, Some ())) by done.
        unfold provider_called at 1. simpl. rewrite Hp.
        rewrite fmap_snoc, <- Permutation_cons_append. simpl.
        by apply Permutation_skip.
      * apply Forall_app. split; [done|]. constructor; [|done].
        exists (errgroup.store g).2. simpl. by rewrite Hact.
      * destruct (errgroup.err g) as [e0|]; simpl.
        { destruct He as [?|(name & p' & c & ? & ? & ? & ?)]; [by left|right].
          exists name, p', c. split_and!; [done..| |done].
          apply elem_of_app. by left. }
        destruct e as [e|]; simpl.
        { right. exists own, p, e. split_and!; [done..| |done].
          apply elem_of_app. right. by left. }
        apply Forall_insert.
        { eapply Forall_impl; [done|]. intros t Ht Hnone.
          destruct (Ht Hnone) as (p' & ? & ?). exists p'.
          split; [done|]. apply elem_of_app. by left. }
        simpl. intros _. exists p. split; [done|].
        apply elem_of_app. right. by left.
    + injection Hbody as <- <-. split; group_fields; [|done|].
      * rewrite (omap_insert_perm _ _ _ (own, Some ())) by done.
        unfold provider_called at 1. simpl. by rewrite Hp.
      * destruct (errgroup.err g); simpl; [done|].
        left. by exists own.
Qed.

Lemma ProvidersParallel_inv_run sched s :
  errgroup.stale (prun sched (errgroup.start named ([], s))) = false →
  PInv (prun sched (errgroup.start named ([], s))).
Proof.
  apply (errgroup_facts.run_invariant _ _ lv named PInv);
    [|apply ProvidersParallel_inv_step].
  split; simpl; [done|constructor|done].
Qed.

Lemma omap_provider_called_quiet (ts : list (string * option unit)) :
  Forall (λ t, t.2 = None) ts →
  omap (provider_called Providers) ts = omap (Providers !!.) ts.*1.
Proof.
  induction 1 as [|[own pc] ts Hpc _ IH]; [done|].
  simpl in Hpc. subst pc. rewrite fmap_cons. cbn [omap list_omap].
  unfold provider_called at 1. simpl. by rewrite IH.
Qed.


(** [ProvidersParallel] in an execution without late reads: one call
    for each registered name; the error, if any, is that of an unknown
    name or the wrapped error of a call. *)
Lemma ProvidersParallel_without_late_reads sched s err log s' :
  ProvidersParallel Providers lv sched named (logged action) ([], s)
    = Some (err, (log, s')) →
  ProvidersParallel_reads_late Providers lv sched named (logged action) ([], s)
    = false →
  log.*1 ≡ₚ omap (Providers !!.) named
  ∧ Forall (λ c, ∃ s, (action c.1 s).1 = c.2) log
  ∧ match err with
    | Some e => unknown_vm_provider Providers named e
                ∨ wrapped_failure Providers named log e
    | None => ∀ name, name ∈ named →
                      ∃ p, Providers !! name = Some p ∧ (p, None) ∈ log
    end.
Proof.
  unfold ProvidersParallel, ProvidersParallel_reads_late, errgroup.Wait.
  set (g := errgroup.run _ _ _ _ _).
  destruct (errgroup.finished g) eqn:Hfin; [|done].
  intros [= <- Hstore] Hstale.
  destruct (ProvidersParallel_inv_run sched s Hstale) as [Hc Hres He].
  destruct (errgroup_facts.wf_run (ProvidersParallel_closure Providers (logged action))
              () lv named sched ([], s)) as [Ha _].
  apply errgroup_facts.finished_quiet in Hfin as [Htodo Hq].
  fold g in Hc, Hres, He, Ha.
  rewrite Htodo, app_nil_r in Ha. rewrite Hstore in Hc, Hres, He.
  simpl in Hc, Hres, He. split_and!; [|done|].
  - by rewrite Hc, omap_provider_called_quiet, Ha.
  - destruct (errgroup.err g); [done|].
    intros name Hin. rewrite <- Ha in Hin.
    apply list_elem_of_fmap in Hin as (t & -> & Ht).
    unfold errgroup.quiet in Hq. rewrite Forall_forall in He, Hq.
    by apply He, Hq.
Qed.

End PP_facts.

Section ProvidersParallel_one_failure.
Context {P S : Type}.
Variable Providers : gmap string P.
Variable action : P → S → option error * S.
Variable lv : LoopVar.

(** Over the names [A; B; C] where only the action of B fails: in an
    execution without late reads [ProvidersParallel] calls the action
    once for each of the three providers and returns the error of B,
    wrapped. *)
Lemma ProvidersParallel_only_one_fails (A B C : string) (pA pB pC : P)
    (e : error) sched s err log s' :
  Providers !! A = Some pA → Providers !! B = Some pB →
  Providers !! C = Some pC →
  (∀ s, (action pA s).1 = None) → (∀ s, (action pB s).1 = Some e) →
  (∀ s, (action pC s).1 = None) →
  ProvidersParallel Providers lv sched [A; B; C] (logged action) ([], s)
    = Some (err, (log, s')) →
  ProvidersParallel_reads_late Providers lv sched [A; B; C] (logged action) ([], s)
    = false →
  err = Some (Wrap e ("in provider: " +:+ B)) ∧ log.*1 ≡ₚ [pA; pB; pC].
Proof.
  intros HA HB HC HpA HpB HpC Hrun Hlate.
  destruct (ProvidersParallel_without_late_reads Providers action lv [A; B; C]
              sched s err log s' Hrun Hlate) as (Hcalls & Hres & Herr).
  split.
  - rewrite Forall_forall in Hres.
    destruct err as [e'|].
    + destruct Herr as [(name & Hin & Hnone & _)|(name & p & c & Hin & Hp & Hc & ->)].
      { repeat (apply elem_of_cons in Hin as [->|Hin]; [congruence|]).
        by apply elem_of_nil in Hin. }
      destruct (Hres _ Hc) as [s0 Hs0]. simpl in Hs0.
      apply elem_of_cons in Hin as [->|Hin].
      { rewrite HA in Hp. injection Hp as <-. rewrite HpA in Hs0. done. }
      apply elem_of_cons in Hin as [->|Hin].
      { rewrite HB in Hp. injection Hp as <-. rewrite HpB in Hs0. congruence. }
      apply elem_of_cons in Hin as [->|Hin]; [|by apply elem_of_nil in Hin].
      rewrite HC in Hp. injection Hp as <-. rewrite HpC in Hs0. done.
    + destruct (Herr B) as (p & Hp & Hc); [right; left|].
      rewrite HB in Hp. injection Hp as <-.
      destruct (Hres _ Hc) as [s0 Hs0]. simpl in Hs0. rewrite HpB in Hs0. done.
  - rewrite Hcalls. cbn [omap list_omap]. by rewrite HA, HB, HC.
Qed.
End ProvidersParallel_one_failure.

(** ** The functions on concrete providers *)

Lemma three_clouds_keys k p : three_clouds !! k = Some p → fixed_name p = k.
Proof.
  unfold three_clouds, two_clouds. rewrite !lookup_insert.
  intros Hl. repeat case_decide; by simplify_eq.
Qed.

(** C1, at a failing input: the VMs a1 and a2 of aws and g1 of gce, and the
    registry of the two.  The loop visits the group of gce, then that of
    aws.  When both goroutines run after the loop, each finds the name aws
    and the VMs of aws in the loop variables: the action is called twice
    for aws and never for gce.  When the first goroutine looks its provider
    up before the second iteration and goes on after it, the action is
    called for gce with the VMs of aws. *)
Theorem FanOut_shared_loop_variables :
  let a1 := vm_of "a1" "aws" "us-east-1a" in
  let g1 := vm_of "g1" "gce" "us-east1-b" in
  let a2 := vm_of "a2" "aws" "us-east-1b" in
  let action := logged2 (λ p (_ : List), succeeding p) in
  range_map in_order (collate mixed) = [("gce", [g1]); ("aws", [a1; a2])]
  ∧ FanOut two_clouds PerLoop in_order (errgroup.late 2 2) mixed action ([], ())
    = Some (None, ([((aws, [a1; a2]), None); ((aws, [a1; a2]), None)], ()))
  ∧ FanOut two_clouds PerLoop in_order
      [errgroup.Loop; errgroup.Go 0; errgroup.Loop;
       errgroup.Go 0; errgroup.Go 1; errgroup.Go 1] mixed action ([], ())
    = Some (None, ([((gce, [a1; a2]), None); ((aws, [a1; a2]), None)], ())).
Proof. vm_compute. done. Qed.

(** C7, at a failing input: the names aws, gce and azure, all registered,
    and an action that fails for gce alone.  When the three goroutines run
    after the loop, each finds azure in the loop variable: the action is
    called three times for azure, never for aws or gce, and the result is
    nil. *)
Theorem ProvidersParallel_shared_loop_variable :
  ProvidersParallel three_clouds PerLoop (errgroup.late 1 3)
    ["aws"; "gce"; "azure"] (logged (failing_for "gce" boom)) ([], ())
  = Some (None, ([(azure, None); (azure, None); (azure, None)], ())).
Proof. vm_compute. done. Qed.

(** C5, as stated, fails when the action returns an error for a registered
    group first: with a1 of aws and x1 of the unregistered bogus, and an
    action that fails for aws, [FanOut] returns the error of the action,
    not "unknown provider name: bogus", whichever way the loop variables
    are kept. *)
Lemma FanOut_unknown_provider_first_error :
  let a1 := vm_of "a1" "aws" "us-east-1a" in
  let action := logged2 (λ p (_ : List), failing_for "aws" boom p) in
  Provider <$> stray = ["aws"; "bogus"]
  ∧ two_clouds !! "bogus" = None
  ∧ FanOut two_clouds PerLoop in_order (errgroup.eager 2 2) stray action ([], ())
    = Some (Some boom, ([((aws, [a1]), Some boom)], ()))
  ∧ FanOut_reads_late two_clouds PerLoop in_order (errgroup.eager 2 2) stray
      action ([], ()) = false
  ∧ FanOut two_clouds PerIteration in_order (errgroup.eager 2 2) stray action ([], ())
    = Some (Some boom, ([((aws, [a1]), Some boom)], ()))
  ∧ boom ≠ New ("unknown provider name: " +:+ "bogus").
Proof. vm_compute. done. Qed.

Lemma FanOut_unknown_provider_witness :
  ∃ sched,
    is_Some (FanOut two_clouds PerLoop in_order sched stray
               (logged2 (λ p (_ : List), succeeding p)) ([], ()))
    ∧ FanOut_reads_late two_clouds PerLoop in_order sched stray
        (logged2 (λ p (_ : List), succeeding p)) ([], ()) = false.
Proof.
  apply (FanOut_unknown_provider two_clouds (λ p (_ : List), succeeding p)
           PerLoop in_order stray () "bogus").
  - apply list_elem_of_In. simpl. tauto.
  - reflexivity.
Defined.

Lemma ForProvider_cases_witness :
  ForProvider two_clouds "bogus" (logged succeeding) ([], ())
  = (Some (New "unknown vm provider: bogus"), ([], ())).
Proof.
  apply (ForProvider_cases two_clouds "bogus" succeeding [] ()). reflexivity.
Defined.

Lemma ProvidersSequential_fail_fast_witness :
  ProvidersSequential three_clouds ["aws"; "gce"; "azure"]
    (logged (failing_for "gce" boom)) ([], ())
  = (Some (Wrap boom "in provider: gce"), ([(aws, None); (gce, Some boom)], ())).
Proof.
  apply (ProvidersSequential_fail_fast three_clouds "aws" "gce" "azure" aws gce
           (failing_for "gce" boom) [] () () () boom); reflexivity.
Defined.

Lemma FindActiveAccount_consensus_witness :
  FindActiveAccount three_clouds fmt_entries in_order in_order (mkGlobals "" ())
  = (("acct1", None), mkGlobals "acct1" ()).
Proof.
  apply (FindActiveAccount_consensus three_clouds fmt_entries in_order in_order
           (mkGlobals "" ()) [("gce", "acct1"); ("aws", "acct1"); ("azure", "")] ()).
  - reflexivity.
  - apply names_distinct_keys. exact three_clouds_keys.
  - vm_compute. reflexivity.
  - vm_compute. reflexivity.
Defined.

Lemma FindActiveAccount_memoized_witness :
  FindActiveAccount (Prov := counting Fixed_provider) three_clouds fmt_entries
    reversed reversed (mkGlobals "acct1" (3, ()))
  = (("acct1", None), mkGlobals "acct1" (3, ())).
Proof.
  apply (FindActiveAccount_memoized Fixed_provider three_clouds fmt_entries
           in_order in_order reversed reversed (mkGlobals "" (0, ()))
           (mkGlobals "acct1" (3, ())) "acct1").
  vm_compute. reflexivity.
Defined.

Lemma cachedActiveAccount_written_once_witness :
  cachedActiveAccount
    (FindActiveAccount split_clouds fmt_entries in_order in_order
       (mkGlobals "" ())).2 = "".
Proof.
  eapply (proj1 (cachedActiveAccount_written_once split_clouds fmt_entries)
            in_order in_order (mkGlobals "" ())).
  vm_compute. reflexivity.
Defined.

(** * Further properties *)

(** ** Lists of VMs *)

Lemma project_fill f (vl : List) :
  ∀ done_ rest,
    length rest = length vl →
    project f (length done_) vl (done_ ++ rest) = done_ ++ (f <$> vl).
Proof.
  induction vl as [|vm vl IH]; intros done_ rest Hlen.
  - destruct rest; [done|simplify_eq/=].
  - destruct rest as [|r rest]; [simplify_eq/=|].
    cbn [project]. rewrite insert_app_r_alt, Nat.sub_diag by done.
    cbn [insert list_insert].
    replace (S (length done_)) with (length (done_ ++ [f vm]))
      by (rewrite length_app; simpl; lia).
    replace (done_ ++ f vm :: rest) with ((done_ ++ [f vm]) ++ rest)
      by by rewrite <- app_assoc.
    rewrite IH by (simpl in Hlen; lia).
    by rewrite fmap_cons, <- app_assoc.
Qed.



Lemma ltb_lt s1 s2 : String.ltb s1 s2 = true ↔ String.compare s1 s2 = Lt.
Proof. unfold String.ltb. by destruct (String.compare s1 s2). Qed.

Lemma at_index_Some {A} (s : list A) i x :
  at_index s i = Some x ↔ (0 ≤ i)%Z ∧ s !! Z.to_nat i = Some x.
Proof.
  unfold at_index. case_bool_decide as H.
  - split; [intros ?; split; [lia|done]|by intros [_ ?]].
  - split; [done|]. intros [Hi Hl]. apply lookup_lt_Some in Hl. lia.
Qed.

Lemma at_index_None {A} (s : list A) i :
  at_index s i = None ↔ ¬ (0 ≤ i < Z.of_nat (length s))%Z.
Proof.
  unfold at_index. case_bool_decide as H; [|done].
  split; [|done]. intros Hl. apply lookup_ge_None in Hl. lia.
Qed.

Lemma swap_head_perm {A} (l : list A) b x y :
  l !! b = Some y → y :: <[b := x]> l ≡ₚ x :: l.
Proof.
  revert b. induction l as [|z l IH]; intros [|b] Hb; simplify_eq/=.
  - apply Permutation_swap.
  - rewrite (Permutation_swap z y), (IH b Hb). apply Permutation_swap.
Qed.

Lemma swap_perm {A} (l : list A) :
  ∀ a b x y, l !! a = Some x → l !! b = Some y →
             <[b := x]> (<[a := y]> l) ≡ₚ l.
Proof.
  induction l as [|z l IH]; intros [|a] [|b] x y Ha Hb; simplify_eq/=.
  - done.
  - by apply swap_head_perm.
  - by apply swap_head_perm.
  - by rewrite (IH a b x y).
Qed.

Lemma swap_back {A} (l : list A) a b x y :
  l !! a = Some x → l !! b = Some y →
  <[b := y]> (<[a := x]> (<[b := x]> (<[a := y]> l))) = l.
Proof.
  intros Ha Hb. apply list_eq. intros k.
  pose proof (lookup_lt_Some _ _ _ Ha). pose proof (lookup_lt_Some _ _ _ Hb).
  destruct (decide (k = b)) as [->|Hkb].
  - by rewrite list_lookup_insert_eq by by rewrite !length_insert.
  - rewrite list_lookup_insert_ne by done.
    destruct (decide (k = a)) as [->|Hka].
    + by rewrite list_lookup_insert_eq by by rewrite !length_insert.
    + by rewrite !list_lookup_insert_ne by done.
Qed.

(** X1. [Names] and [Zones] give the names and the zones of the VMs of
    the list, one for each VM, in the order of the list. *)
Theorem Names_Zones_in_order (vl : List) :
  Names vl = Name <$> vl ∧ Zones vl = Zone <$> vl.
Proof.
  split.
  - apply (project_fill Name vl [] (replicate (length vl) "")).
    by rewrite length_replicate.
  - apply (project_fill Zone vl [] (replicate (length vl) "")).
    by rewrite length_replicate.
Qed.


(** X3. On indices within the list, [Swap] exchanges the two VMs and
    leaves the others where they are: the list keeps its length and its
    VMs, and swapping again gives the list back. *)
Theorem Swap_exchanges (vl : List) (i j : Z) (vi vj : VM) :
  at_index vl i = Some vi → at_index vl j = Some vj →
  ∃ vl', Swap vl i j = Some vl'
         ∧ Len vl' = Len vl
         ∧ at_index vl' i = Some vj ∧ at_index vl' j = Some vi
         ∧ (∀ k, k ≠ i → k ≠ j → at_index vl' k = at_index vl k)
         ∧ vl' ≡ₚ vl
         ∧ Swap vl' i j = Some vl.
Proof.
  intros Hi Hj. unfold Swap. rewrite Hi, Hj. eexists. split; [done|].
  pose proof Hi as [Hi0 Hil]%at_index_Some. pose proof Hj as [Hj0 Hjl]%at_index_Some.
  pose proof (lookup_lt_Some _ _ _ Hil). pose proof (lookup_lt_Some _ _ _ Hjl).
  set (vl' := <[Z.to_nat j := vi]> (<[Z.to_nat i := vj]> vl)).
  assert (length vl' = length vl) as Hlen by (subst vl'; by rewrite !length_insert).
  assert (vl' !! Z.to_nat j = Some vi) as Hj'.
  { subst vl'. by rewrite list_lookup_insert_eq by by rewrite length_insert. }
  assert (vl' !! Z.to_nat i = Some vj) as Hi'.
  { subst vl'. destruct (decide (Z.to_nat i = Z.to_nat j)) as [E|E].
    - rewrite E in *. rewrite list_lookup_insert_eq by by rewrite length_insert.
      congruence.
    - rewrite list_lookup_insert_ne by done. by rewrite list_lookup_insert_eq. }
  split_and!.
  - unfold Len. by rewrite Hlen.
  - by apply at_index_Some.
  - by apply at_index_Some.
  - intros k Hki Hkj. unfold at_index. rewrite Hlen.
    case_bool_decide; [|done]. subst vl'.
    rewrite !list_lookup_insert_ne by lia. done.
  - by apply swap_perm.
  - rewrite (proj2 (at_index_Some vl' j vi) (conj Hj0 Hj')).
    rewrite (proj2 (at_index_Some vl' i vj) (conj Hi0 Hi')).
    f_equal. by apply swap_back.
Qed.

(** X4. [Less] and [Swap] panic exactly when one of the two indices is
    negative or not below the length of the list. *)
Theorem Less_Swap_panic (vl : List) (i j : Z) :
  (Less vl i j = None ↔ ¬ ((0 ≤ i < Len vl)%Z ∧ (0 ≤ j < Len vl)%Z))
  ∧ (Swap vl i j = None ↔ ¬ ((0 ≤ i < Len vl)%Z ∧ (0 ≤ j < Len vl)%Z)).
Proof.
  unfold Less, Swap, Len.
  destruct (at_index vl i) as [vi|] eqn:Hi, (at_index vl j) as [vj|] eqn:Hj.
  - split; (split; [done|]); intros H; exfalso; apply H;
      unfold at_index in *; repeat case_bool_decide; done.
  - apply at_index_None in Hj. split; (split; [tauto|done]).
  - apply at_index_None in Hi. split; (split; [tauto|done]).
  - apply at_index_None in Hi. split; (split; [tauto|done]).
Qed.


Lemma Swap_exchanges_witness :
  ∃ vl', Swap mixed 0 2 = Some vl' ∧ Len vl' = Len mixed
         ∧ at_index vl' 0 = Some (vm_of "a2" "aws" "us-east-1b")
         ∧ at_index vl' 2 = Some (vm_of "a1" "aws" "us-east-1a")
         ∧ (∀ k, k ≠ 0%Z → k ≠ 2%Z → at_index vl' k = at_index mixed k)
         ∧ vl' ≡ₚ mixed ∧ Swap vl' 0 2 = Some mixed.
Proof.
  apply (Swap_exchanges mixed 0 2 (vm_of "a1" "aws" "us-east-1a")
           (vm_of "a2" "aws" "us-east-1b")); reflexivity.
Defined.

(** ** [Locality]: the zones with a separator, and the fatal ones *)

Module regexp_more.
Import regexp regexp_facts.

Lemma in_az_lower l : in_ranges l [("a"%char, "z"%char)] = true → lower l.
Proof.
  unfold in_ranges; cbn [existsb fst snd]. rewrite orb_false_r.
  intros [H1 H2]%andb_true_iff. split; by apply Nat.leb_le.
Qed.

Lemma backtrack_literal_cons a x s pos caps k :
  backtrack (Literal a) (x :: s) pos caps k
  = if Ascii.eqb x a then k s (S pos) caps else None.
Proof. reflexivity. Qed.

(** With the separator: [.*] first takes three characters, then two, then
    one, and the rest of the pattern fails; with none, it matches. *)
Lemma star_tail_separator c l pos fuel start :
  lower l → Ascii.eqb c "-" = false → 3 ≤ fuel →
  star_loop AnyCharNotNL (after_star start start) fuel [c; "-"%char; l] pos ∅
  = Some (<[0 := (start, S (S (S pos)))]> (<[1 := (start, S pos)]> ∅)).
Proof.
  intros Hl Hc Hfuel.
  destruct fuel as [|[|[|fuel]]]; [lia..|].
  assert (Hk : after_star start start [c; "-"%char; l] pos ∅
               = Some (<[0 := (start, S (S (S pos)))]> (<[1 := (start, S pos)]> ∅))).
  { unfold after_star. cbn [backtrack].
    rewrite in_single_range, Hc. cbn [xorb negb].
    rewrite Ascii.eqb_refl, (lower_in_az l Hl). done. }
  assert (Hk1 : ∀ p caps, after_star start start ["-"%char; l] p caps = None).
  { intros p caps. unfold after_star. rewrite backtrack_class_cons.
    by rewrite in_single_range, Ascii.eqb_refl. }
  assert (Hk2 : ∀ p caps, after_star start start [l] p caps = None).
  { intros p caps. unfold after_star. rewrite backtrack_class_cons.
    destruct (xorb _ _); [|done]. done. }
  assert (Hk3 : ∀ p caps, after_star start start [] p caps = None) by done.
  rewrite star_any_cons. destruct (Ascii.eqb c newline); [done|].
  rewrite star_any_cons. change (Ascii.eqb "-" newline) with false. cbv iota.
  rewrite star_any_cons, (lower_not_newline l Hl), star_any_nil.
  by rewrite Hk3, Hk2, Hk1.
Qed.

Lemma leftmost_regionRE_separator pre c l start :
  no_newline pre → lower l → Ascii.eqb c "-" = false →
  leftmost regionRE (pre ++ [c; "-"%char; l]) start
  = Some (<[0 := (start, start + length pre + 3)]>
            (<[1 := (start, start + length pre + 1)]> ∅)).
Proof.
  intros Hpre Hl Hc.
  assert (backtrack regionRE (pre ++ [c; "-"%char; l]) start ∅
            (λ _ stop caps, Some (<[0 := (start, stop)]> caps))
          = Some (<[0 := (start, start + length pre + 3)]>
                    (<[1 := (start, start + length pre + 1)]> ∅)))
    as H.
  { rewrite backtrack_regionRE. apply star_any_prefix; [done..|].
    intros fuel' Hf. simpl in Hf. rewrite star_tail_separator by done.
    do 4 f_equal; simpl; lia. }
  destruct (pre ++ [c; "-"%char; l]); cbn [leftmost]; by rewrite H.
Qed.

Lemma FindStringSubmatch_regionRE_separator (pre : string) (c l : ascii) :
  lower l → c ≠ "-"%char →
  FindStringSubmatch regionRE (pre +:+ String c (String "-" (String l "")))
  = [last_line pre +:+ String c (String "-" (String l ""));
     last_line pre +:+ String c ""].
Proof.
  intros Hl Hc%Ascii.eqb_neq. unfold FindStringSubmatch, last_line.
  rewrite list_ascii_of_string_app. cbn [list_ascii_of_string].
  set (text := list_ascii_of_string pre).
  set (line := last_line_chars text).
  assert (∃ skipped, text = skipped ++ line ∧ no_newline line
          ∧ leftmost regionRE (text ++ [c; "-"%char; l]) 0
            = leftmost regionRE (line ++ [c; "-"%char; l]) (length skipped))
    as (skipped & Htext & Hline & ->).
  { destruct (last_line_chars_split text) as [[Hnl Heq]|(s1 & Heq & Hnl)];
      fold line in Heq, Hnl.
    - exists []. by rewrite Heq.
    - exists (s1 ++ [newline]). split_and!; [by rewrite <- app_assoc|done|].
      rewrite Heq at 1. rewrite <- app_assoc. cbn [app].
      rewrite (leftmost_skips c s1 (line ++ [c; "-"%char; l]) 0 Hc).
      + f_equal. rewrite length_app. simpl. lia.
      + left. rewrite length_app. simpl. lia. }
  rewrite leftmost_regionRE_separator by done.
  change (NumSubexp regionRE) with 1. cbn [seq fmap list_fmap].
  unfold group. rewrite lookup_insert_eq, lookup_insert_ne, lookup_insert_eq by done.
  rewrite Htext, <- app_assoc, drop_app_length.
  f_equal; [|f_equal].
  - rewrite take_ge by (rewrite length_app; simpl; lia).
    by rewrite string_of_list_ascii_app.
  - replace (line ++ [c; "-"%char; l]) with ((line ++ [c]) ++ ["-"%char; l])
      by by rewrite <- app_assoc.
    rewrite take_app_length' by (rewrite length_app; simpl; lia).
    by rewrite string_of_list_ascii_app.
Qed.

(** *** What a match says of the text *)

Lemma tail_sound rest pos caps k r :
  backtrack (Concat (Quest (Literal "-"%char))
               (Concat (CharClass false [("a"%char, "z"%char)]) EndText))
    rest pos caps k = Some r →
  ∃ l, lower l ∧ (rest = [l] ∨ rest = ["-"%char; l]).
Proof.
  cbn [backtrack]. destruct rest as [|x rest]; [done|].
  destruct (Ascii.eqb_spec x "-") as [->|Hx].
  - destruct rest as [|y rest]; [done|].
    cbn [xorb]. destruct (in_ranges y _) eqn:Hy.
    + destruct rest as [|z rest].
      * intros _. exists y. split; [by apply in_az_lower|by right].
      * change (in_ranges "-" [("a"%char, "z"%char)]) with false. done.
    + change (in_ranges "-" [("a"%char, "z"%char)]) with false. done.
  - cbn [xorb]. destruct (in_ranges x _) eqn:Hy; [|done].
    destruct rest as [|z rest]; [|done].
    intros _. exists x. split; [by apply in_az_lower|by left].
Qed.

Lemma after_star_sound start top s pos caps r :
  after_star start top s pos caps = Some r → zone_end s.
Proof.
  unfold after_star. destruct s as [|c rest]; [done|].
  rewrite backtrack_class_cons, in_single_range.
  destruct (Ascii.eqb_spec c "-") as [->|Hc]; [done|]. cbn [xorb].
  intros (l & Hl & [->| ->])%tail_sound; exists [], c, l; split_and!; auto.
Qed.

Lemma zone_end_cons x s : zone_end s → zone_end (x :: s).
Proof.
  intros (a & c & l & [->| ->] & Hc & Hl); exists (x :: a), c, l; split_and!; auto.
Qed.

Lemma star_sound start top fuel : ∀ s pos caps r,
  star_loop AnyCharNotNL (after_star start top) fuel s pos caps = Some r →
  zone_end s.
Proof.
  induction fuel as [|fuel IH]; intros s pos caps r.
  - apply after_star_sound.
  - destruct s as [|x s]; [apply after_star_sound|].
    rewrite star_any_cons. destruct (Ascii.eqb x newline).
    + apply after_star_sound.
    + destruct (star_loop _ _ fuel s (S pos) caps) as [r'|] eqn:Hin.
      * intros _. apply zone_end_cons. by eapply IH.
      * apply after_star_sound.
Qed.

Lemma leftmost_sound s : ∀ start r,
  leftmost regionRE s start = Some r → zone_end s.
Proof.
  induction s as [|x s IH]; intros start r; cbn [leftmost];
    rewrite backtrack_regionRE;
    destruct (star_loop _ _ _ _ _ _) as [r'|] eqn:Hstar;
    try (intros _; by eapply star_sound); [done|].
  intros H. apply zone_end_cons. by eapply IH.
Qed.

Lemma zone_end_region_zone (zone : string) :
  zone_end (list_ascii_of_string zone) → region_zone zone.
Proof.
  intros (a & c & l & Hshape & Hc & Hl).
  exists (string_of_list_ascii a), c, l. split_and!; [|done..].
  rewrite <- (string_of_list_ascii_of_string zone).
  destruct Hshape as [-> | ->]; [left|right];
    by rewrite string_of_list_ascii_app.
Qed.

Lemma FindStringSubmatch_regionRE_none (zone : string) :
  ¬ region_zone zone → FindStringSubmatch regionRE zone = [].
Proof.
  intros Hn. unfold FindStringSubmatch.
  destruct (leftmost _ _ _) as [r|] eqn:Hm; [|done].
  exfalso. apply Hn, zone_end_region_zone. by eapply leftmost_sound.
Qed.

End regexp_more.

Section Locality_more.
Variable Local : string.

(** X5. For a VM that is not local and whose zone ends in a character
    other than a hyphen, a hyphen and a lowercase ASCII letter, [Locality]
    gives as region the zone without the hyphen and the letter, taken from
    after the last newline before these three characters (the whole zone
    without them, when there is no such newline). *)
Theorem Locality_with_separator (vm : VM) (pre : string) (c l : ascii) :
  Zone vm = pre +:+ String c (String "-" (String l "")) →
  regexp.lower l → c ≠ "-"%char →
  Zone vm ≠ Local →
  Locality Local vm
  = Some ("region=" +:+ (last_line pre +:+ String c "") +:+ ",zone=" +:+ Zone vm)
  ∧ (regexp.newline ∉ list_ascii_of_string pre → last_line pre = pre).
Proof.
  intros Hz Hl Hc Hloc. split; [|apply regexp_facts.last_line_no_newline].
  unfold Locality, IsLocal.
  rewrite bool_decide_eq_false_2 by done.
  rewrite Hz, regexp_more.FindStringSubmatch_regionRE_separator by done.
  done.
Qed.

(** X6. [Locality] ends the process ([log.Fatalf]) exactly for the VMs that
    are not local and whose zone does not end in a character other than a
    hyphen, then a hyphen or nothing, then a lowercase ASCII letter. *)
Theorem Locality_fatal_iff (vm : VM) :
  Locality Local vm = None ↔ Zone vm ≠ Local ∧ ¬ region_zone (Zone vm).
Proof.
  unfold Locality, IsLocal. split.
  - case_bool_decide as Hloc; [done|]. intros Hnone. split; [done|].
    intros (pre & c & l & [Hz|Hz] & Hc & Hl); rewrite Hz in Hnone.
    + by rewrite regexp_facts.FindStringSubmatch_regionRE in Hnone.
    + by rewrite regexp_more.FindStringSubmatch_regionRE_separator in Hnone.
  - intros [Hloc Hn]. rewrite bool_decide_eq_false_2 by done.
    by rewrite regexp_more.FindStringSubmatch_regionRE_none.
Qed.
End Locality_more.

Lemma Locality_with_separator_witness :
  Locality "local" (vm_of "n1" "gce" "europe-west2-c")
  = Some "region=europe-west2,zone=europe-west2-c".
Proof.
  refine (proj1 (Locality_with_separator "local" (vm_of "n1" "gce" "europe-west2-c")
                   "europe-west" "2"%char "c"%char eq_refl _ _ _)).
  - vm_compute. split; lia.
  - discriminate.
  - discriminate.
Defined.

(** ** [AllProviderNames], [ProvidersSequential] and the errors of
    [FindActiveAccount] *)

Section sequential_more.
Context {W P : Type} {Prov : Provider.t W P}.
Variable Providers : gmap string P.
Variable fmt_map : gmap string string → string.

(** X7. Whatever the iteration order of the map, [AllProviderNames] returns
    each registered name once and nothing else: the result has no
    duplicates, a name is in it exactly when it is a key of [Providers],
    and its length is the number of registered providers. *)
Theorem AllProviderNames_registered (o : MapOrder) :
  NoDup (AllProviderNames Providers o)
  ∧ (∀ name, name ∈ AllProviderNames Providers o ↔ is_Some (Providers !! name))
  ∧ length (AllProviderNames Providers o) = size Providers.
Proof.
  unfold AllProviderNames. split_and!.
  - rewrite (range_map_perm o Providers). apply NoDup_fst_map_to_list.
  - intros name. rewrite (range_map_perm o Providers). split.
    + intros ([k p] & -> & Hin)%list_elem_of_fmap.
      apply elem_of_map_to_list in Hin. by exists p.
    + intros [p Hp]. apply list_elem_of_fmap. exists (name, p).
      split; [done|]. by apply elem_of_map_to_list.
  - by rewrite length_fmap, (range_map_perm o Providers), length_map_to_list.
Qed.

Lemma AllProviderNames_lookup (o : MapOrder) (name : string) :
  name ∈ AllProviderNames Providers o → is_Some (Providers !! name).
Proof.
  unfold AllProviderNames. intros ([k p] & -> & Hin)%list_elem_of_fmap.
  apply (range_map_lookup Providers) in Hin. by exists p.
Qed.

(** X8. [ProvidersSequential] over [named1 ++ named2] is the run over
    [named1] followed, when that returned nil, by the run over [named2]
    from the state it left; when it returned an error, that error is the
    result and [named2] is not touched. *)
Theorem ProvidersSequential_app {S : Type} (named1 named2 : list string)
    (action : P → S → option error * S) (s : S) :
  ProvidersSequential Providers (named1 ++ named2) action s
  = match ProvidersSequential Providers named1 action s with
    | (Some e, s') => (Some e, s')
    | (None, s') => ProvidersSequential Providers named2 action s'
    end.
Proof.
  revert s. induction named1 as [|name named1 IH]; intros s; [done|].
  cbn [app ProvidersSequential].
  destruct (ForProvider Providers name action s) as [[e|] s']; [done|apply IH].
Qed.

Lemma ProvidersSequential_first_failure {S : Type} (named : list string)
    (action : P → S → option error * S) :
  ∀ s e s',
    ProvidersSequential Providers named action s = (Some e, s') →
    ∃ pre name rest s1,
      named = pre ++ name :: rest
      ∧ ProvidersSequential Providers pre action s = (None, s1)
      ∧ ForProvider Providers name action s1 = (Some e, s').
Proof.
  induction named as [|name named IH]; intros s e s' Hrun; [done|].
  cbn [ProvidersSequential] in Hrun.
  destruct (ForProvider Providers name action s) as [[e0|] s0] eqn:Hfor.
  - injection Hrun as <- <-. by exists [], name, named, s.
  - destruct (IH s0 e s' Hrun) as (pre & name' & rest & s1 & -> & Hpre & Hfail).
    exists (name :: pre), name', rest, s1. split_and!; [done| |done].
    cbn [ProvidersSequential]. by rewrite Hfor.
Qed.

Lemma ForProvider_error {S : Type} name (action : P → S → option error * S) s e s' :
  ForProvider Providers name action s = (Some e, s') →
  (Providers !! name = None ∧ s' = s
   ∧ e = New ("unknown vm provider: " +:+ name))
  ∨ ∃ p cause, Providers !! name = Some p ∧ action p s = (Some cause, s')
               ∧ e = Wrap cause ("in provider: " +:+ name).
Proof.
  unfold ForProvider. destruct (Providers !! name) as [p|] eqn:Hp.
  - destruct (action p s) as [[cause|] s0] eqn:Ha; [intros [= <- <-]|intros [=]].
    right. exists p, cause. by split_and!.
  - intros [= <- <-]. left. by split_and!.
Qed.

Lemma ProvidersSequential_failure {S : Type} (named : list string)
    (action : P → S → option error * S) (s : S) (e : error) (s' : S) :
  ProvidersSequential Providers named action s = (Some e, s') →
  ∃ pre name rest s1,
    named = pre ++ name :: rest
    ∧ ProvidersSequential Providers pre action s = (None, s1)
    ∧ ((Providers !! name = None ∧ s' = s1
        ∧ e = New ("unknown vm provider: " +:+ name))
       ∨ ∃ p cause, Providers !! name = Some p
                    ∧ action p s1 = (Some cause, s')
                    ∧ e = Wrap cause ("in provider: " +:+ name)).
Proof.
  intros (pre & name & rest & s1 & Hn & Hpre & Hfail)%ProvidersSequential_first_failure.
  exists pre, name, rest, s1. split_and!; [done..|].
  by apply ForProvider_error.
Qed.

(** X9. An error returned by [ProvidersSequential] comes from one name of
    the list, the first that fails: the names before it were all run
    without error, and the error is either "unknown vm provider: <name>"
    (the name is not registered, and the state is the one the earlier
    names left) or the error of the action on that provider wrapped as
    "in provider: <name>" (the state is the one this call of the action
    left). The names after it play no part. *)
Theorem ProvidersSequential_error {S : Type} (named : list string)
    (action : P → S → option error * S) (s : S) (e : error) (s' : S) :
  ProvidersSequential Providers named action s = (Some e, s') →
  ∃ pre name rest s1,
    named = pre ++ name :: rest
    ∧ ProvidersSequential Providers pre action s = (None, s1)
    ∧ ((Providers !! name = None ∧ s' = s1
        ∧ e = New ("unknown vm provider: " +:+ name))
       ∨ ∃ p cause, Providers !! name = Some p
                    ∧ action p s1 = (Some cause, s')
                    ∧ e = Wrap cause ("in provider: " +:+ name)).
Proof. apply ProvidersSequential_failure. Qed.

Lemma ProvidersSequential_succeeding {S : Type} (action : P → S → option error * S)
    (named : list string) :
  (∀ p s, (action p s).1 = None) →
  Forall (λ name, is_Some (Providers !! name)) named →
  ∀ log s, ∃ s',
    ProvidersSequential Providers named (logged action) (log, s)
    = (None, (log ++ ((λ p, (p, None)) <$> omap (Providers !!.) named), s')).
Proof.
  intros Hok. induction 1 as [|name named [p Hp] _ IH]; intros log s.
  - exists s. simpl. by rewrite app_nil_r.
  - destruct (action p s) as [r s1] eqn:Ha.
    pose proof (Hok p s) as Hr. rewrite Ha in Hr. simpl in Hr. subst r.
    destruct (IH (log ++ [(p, None)]) s1) as [s' Hrun]. exists s'.
    cbn [ProvidersSequential omap list_omap]. rewrite Hp.
    rewrite (ForProvider_success Providers name (logged action) (log, s) p
               (log ++ [(p, None)], s1) Hp (logged_call _ _ _ _ _ _ Ha)).
    rewrite Hrun, fmap_cons. by rewrite <- app_assoc.
Qed.

(** X10. When every name of the list is registered and the action never
    fails, [ProvidersSequential] returns nil and has called the action once
    for each name of the list, in the order of the list (a name listed
    twice is run twice). *)
Theorem ProvidersSequential_all_succeed {S : Type} (action : P → S → option error * S)
    (named : list string) (log : list (P * option error)) (s : S) :
  (∀ p s, (action p s).1 = None) →
  Forall (λ name, is_Some (Providers !! name)) named →
  ∃ s',
    ProvidersSequential Providers named (logged action) (log, s)
    = (None, (log ++ ((λ p, (p, None)) <$> omap (Providers !!.) named), s')).
Proof. intros Hok Hreg. by apply ProvidersSequential_succeeding. Qed.

(** X11. [ProvidersSequential(AllProviderNames(), action)] with an action
    that never fails returns nil and calls the action exactly once on every
    registered provider, whatever the iteration order of the map. *)
Theorem ProvidersSequential_all_providers {S : Type}
    (action : P → S → option error * S) (o : MapOrder) (s : S) :
  (∀ p s, (action p s).1 = None) →
  ∃ log s',
    ProvidersSequential Providers (AllProviderNames Providers o) (logged action) ([], s)
    = (None, (log, s'))
    ∧ log.*1 ≡ₚ (map_to_list Providers).*2.
Proof.
  intros Hok.
  assert (Forall (λ name, is_Some (Providers !! name)) (AllProviderNames Providers o))
    as Hreg.
  { apply Forall_forall. intros name Hin. by eapply AllProviderNames_lookup. }
  destruct (ProvidersSequential_succeeding action _ Hok Hreg [] s) as [s' Hrun].
  eexists _, s'. split; [done|]. rewrite app_nil_l, <- list_fmap_compose.
  unfold AllProviderNames.
  assert (∀ l : list (string * P),
            (∀ k p, (k, p) ∈ l → Providers !! k = Some p) →
            (fst ∘ (λ p : P, (p, @None error))) <$> omap (Providers !!.) l.*1 = l.*2)
    as Hl.
  { induction l as [|[k p] l IH]; intros Hin; [done|].
    rewrite !fmap_cons. cbn [omap list_omap fst].
    rewrite (Hin k p) by left. rewrite fmap_cons. simpl. f_equal.
    apply IH. intros k' p' ?. apply Hin. by right. }
  rewrite Hl by apply (range_map_lookup Providers).
  by rewrite (range_map_perm o Providers).
Qed.

(** An error of the closure of [FindActiveAccount] is an error of the
    provider. *)
Lemma askAccount_error p st cause st' :
  askAccount p st = (Some cause, st') →
  ∃ acct, Provider.FindActiveAccount p st.2 = ((acct, Some cause), st'.2).
Proof.
  unfold askAccount.
  destruct (Provider.FindActiveAccount p st.2) as [[acct err] w'].
  intros [= -> <-]. by exists acct.
Qed.

(** X12. When [FindActiveAccount] returns an error, the account it returns
    is empty, the cache is left as it was, and the error is one of three:
    "no Providers returned any active accounts", "multiple active Provider
    accounts detected: ...", or the error of the [FindActiveAccount] of a
    registered provider wrapped as "in provider: <its key>". It is never
    "unknown vm provider": the names come from the registry itself. *)
Theorem FindActiveAccount_errors (o1 o2 : MapOrder) (g g' : Globals)
    (r : string) (e : error) :
  FindActiveAccount Providers fmt_map o1 o2 g = ((r, Some e), g') →
  r = "" ∧ cachedActiveAccount g' = cachedActiveAccount g
  ∧ (e = New "no Providers returned any active accounts"
     ∨ (∃ providerAccounts,
          e = New ("multiple active Provider accounts detected: "
                   +:+ fmt_map providerAccounts))
     ∨ ∃ name p cause w acct,
         Providers !! name = Some p
         ∧ Provider.FindActiveAccount p w = ((acct, Some cause), world g')
         ∧ e = Wrap cause ("in provider: " +:+ name)).
Proof.
  unfold FindActiveAccount. case_bool_decide; [done|].
  destruct (ProvidersSequential _ _ _ _) as [[e0|] [pa w]] eqn:Hseq.
  - intros [= <- <- <-]. split_and!; [done..|]. right. right.
    apply ProvidersSequential_failure in Hseq
      as (pre & name & rest & s1 & Hnames & _ & [(Hnone & _)|(p & cause & Hp & Ha & ->)]).
    + exfalso.
      assert (name ∈ AllProviderNames Providers o1) as Hin.
      { rewrite Hnames. apply elem_of_app. right. left. }
      apply AllProviderNames_lookup in Hin as [p Hp]. congruence.
    + apply askAccount_error in Ha as [acct Ha].
      by exists name, p, cause, s1.2, acct.
  - destruct (countAccounts _) as [counts lastAccount].
    destruct (size counts) as [|[|n]]; intros [= <- <- <-].
    + split_and!; [done..|]. by left.
    + split_and!; [done..|]. right. left. by eexists.
Qed.

Lemma poll_constant (answer : P → string) (ps : list P) (w : W) :
  (∀ p, p ∈ ps → ∀ w, Provider.FindActiveAccount p w = ((answer p, None), w)) →
  poll ps w = (Some ((λ p, (Provider.Name p, answer p)) <$> ps), w).
Proof.
  induction ps as [|p ps IH]; intros Hpure; [done|].
  cbn [poll]. rewrite (Hpure p) by left.
  rewrite IH by (intros p' ?; apply Hpure; by right). done.
Qed.

(** X13. When the registered providers have distinct names and each
    answers without error and without changing the world, the result of
    [FindActiveAccount] (account, error and cache) does not depend on the
    order in which the two [range] loops over maps visit their entries. *)
Theorem FindActiveAccount_any_order (answer : P → string)
    (o1 o2 o1' o2' : MapOrder) (g : Globals) :
  names_distinct Providers →
  (∀ name p, Providers !! name = Some p →
             ∀ w, Provider.FindActiveAccount p w = ((answer p, None), w)) →
  FindActiveAccount Providers fmt_map o1 o2 g
  = FindActiveAccount Providers fmt_map o1' o2' g.
Proof.
  intros Hd Hpure.
  destruct (decide (cachedActiveAccount g = "")) as [Hc|Hc].
  2:{ by rewrite !FindActiveAccount_cached. }
  assert (∀ o, poll (range_map o Providers).*2 (world g)
               = (Some ((λ p, (Provider.Name p, answer p))
                          <$> (range_map o Providers).*2), world g)) as Hpoll.
  { intros o. apply poll_constant. intros p ([k p'] & -> & Hin)%list_elem_of_fmap.
    eapply Hpure. by eapply range_map_lookup. }
  set (answers o := (λ p, (Provider.Name p, answer p)) <$> (range_map o Providers).*2).
  assert (answers o1 ≡ₚ answers o1') as Hperm.
  { subst answers. simpl. by rewrite !(range_map_perm _ Providers). }
  assert (∀ o, NoDup (answers o).*1) as Hnd.
  { intros o. eapply (answers_NoDup Providers o); [done|].
    subst answers. simpl. by rewrite <- !list_fmap_compose. }
  destruct (FindActiveAccount_resolve Providers fmt_map o1 o2 g _ _ Hc Hd (Hpoll o1))
    as (counts & last & Hdom & Hlast & ->).
  destruct (FindActiveAccount_resolve Providers fmt_map o1' o2' g _ _ Hc Hd (Hpoll o1'))
    as (counts' & last' & Hdom' & Hlast' & ->).
  fold (answers o1) in *. fold (answers o1') in *.
  assert (votes (answers o1) = votes (answers o1')) as Hv by by apply votes_perm.
  assert (size counts = size counts') as Hs.
  { by rewrite <- !(size_dom (D := gset string)), Hdom, Hdom', Hv. }
  assert ((list_to_map (answers o1) : gmap string string) = list_to_map (answers o1'))
    as Hmap by by apply list_to_map_proper.
  rewrite <- Hs, Hmap. destruct (size counts) as [|[|n]] eqn:Hsize; [done| |done].
  assert (last = last') as ->; [|done].
  destruct Hlast as [->|Hl]; [by rewrite map_size_empty in Hsize|].
  destruct Hlast' as [->|Hl']; [by rewrite map_size_empty in Hs|].
  rewrite <- Hv in Hl'.
  apply (size_singleton_inv (votes (answers o1))); [|done..].
  by rewrite <- Hdom, size_dom.
Qed.
End sequential_more.

Lemma ProvidersSequential_error_witness :
  ∃ pre name rest s1,
    ["aws"; "gce"; "azure"] = pre ++ name :: rest
    ∧ ProvidersSequential three_clouds pre (logged (failing_for "gce" boom)) ([], ())
      = (None, s1)
    ∧ ((three_clouds !! name = None ∧ ([(aws, None); (gce, Some boom)], ()) = s1
        ∧ Wrap boom "in provider: gce" = New ("unknown vm provider: " +:+ name))
       ∨ ∃ p cause, three_clouds !! name = Some p
                    ∧ logged (failing_for "gce" boom) p s1
                      = (Some cause, ([(aws, None); (gce, Some boom)], ()))
                    ∧ Wrap boom "in provider: gce"
                      = Wrap cause ("in provider: " +:+ name)).
Proof.
  apply (ProvidersSequential_error three_clouds ["aws"; "gce"; "azure"]
           (logged (failing_for "gce" boom)) ([], ())).
  reflexivity.
Defined.

Lemma ProvidersSequential_all_succeed_witness :
  ∃ s',
    ProvidersSequential three_clouds ["azure"; "aws"; "azure"] (logged succeeding)
      ([], ())
    = (None, ([] ++ ((λ p, (p, None))
                       <$> omap (three_clouds !!.) ["azure"; "aws"; "azure"]), s')).
Proof.
  apply (ProvidersSequential_all_succeed three_clouds succeeding
           ["azure"; "aws"; "azure"] [] ()).
  - reflexivity.
  - repeat constructor; vm_compute; eexists; reflexivity.
Defined.

Lemma ProvidersSequential_all_providers_witness :
  ∃ log s',
    ProvidersSequential three_clouds (AllProviderNames three_clouds reversed)
      (logged succeeding) ([], ())
    = (None, (log, s'))
    ∧ log.*1 ≡ₚ (map_to_list three_clouds).*2.
Proof.
  apply (ProvidersSequential_all_providers three_clouds succeeding reversed ()).
  reflexivity.
Defined.

Lemma FindActiveAccount_errors_witness :
  "" = ""
  ∧ cachedActiveAccount (mkGlobals "" ()) = cachedActiveAccount (mkGlobals "" ())
  ∧ (Wrap boom "in provider: offline"
     = New "no Providers returned any active accounts"
     ∨ (∃ providerAccounts,
          Wrap boom "in provider: offline"
          = New ("multiple active Provider accounts detected: "
                 +:+ fmt_entries providerAccounts))
     ∨ ∃ name p cause w acct,
         flaky_clouds !! name = Some p
         ∧ Provider.FindActiveAccount p w = ((acct, Some cause), world (mkGlobals "" ()))
         ∧ Wrap boom "in provider: offline" = Wrap cause ("in provider: " +:+ name)).
Proof.
  apply (FindActiveAccount_errors flaky_clouds fmt_entries in_order in_order
           (mkGlobals "" ()) (mkGlobals "" ()) "" (Wrap boom "in provider: offline")).
  vm_compute. reflexivity.
Defined.

Lemma three_clouds_lookup (name : string) (p : Fixed) :
  three_clouds !! name = Some p → fixed_error p = None.
Proof.
  unfold three_clouds, two_clouds.
  rewrite !lookup_insert_Some, lookup_empty.
  intros [[_ <-]|[_ [[_ <-]|[_ [[_ <-]|[_ [=]]]]]]]; reflexivity.
Qed.

Lemma FindActiveAccount_any_order_witness :
  FindActiveAccount three_clouds fmt_entries in_order in_order (mkGlobals "" ())
  = FindActiveAccount three_clouds fmt_entries reversed reversed (mkGlobals "" ()).
Proof.
  apply (FindActiveAccount_any_order three_clouds fmt_entries fixed_account).
  - apply names_distinct_keys. exact three_clouds_keys.
  - intros name p Hp w. simpl. by rewrite (three_clouds_lookup name p Hp).
Defined.

(** ** The partition, and [FanOut] and [ProvidersParallel] in every execution *)

Lemma collate_concat (vms : List) : concat (map_to_list (collate vms)).*2 ≡ₚ vms.
Proof.
  induction vms as [|vm vms IH] using rev_ind.
  - unfold collate. simpl. by rewrite map_to_list_empty.
  - rewrite collate_snoc. set (m := collate vms) in *.
    destruct (m !! Provider vm) as [old|] eqn:Hold; simpl.
    + rewrite <- insert_delete_eq.
      rewrite map_to_list_insert by apply lookup_delete_eq.
      rewrite <- IH, <- (map_to_list_delete m _ _ Hold).
      rewrite !fmap_cons. simpl. rewrite <- !app_assoc.
      apply Permutation_app_head. apply Permutation_app_comm.
    + rewrite map_to_list_insert by done.
      rewrite fmap_cons. simpl. rewrite IH. apply Permutation_cons_append.
Qed.

(** X14. The first loop of [FanOut] partitions the list: the groups of the
    map, put together, are the VMs of the list (none lost, none twice);
    each group is not empty and holds the VMs of its provider name in the
    order of the list; no name has two groups; and every VM is in the
    group of its own provider name. *)
Theorem collate_partition (vms : List) (o : MapOrder) :
  concat (range_map o (collate vms)).*2 ≡ₚ vms
  ∧ (∀ name group, (name, group) ∈ range_map o (collate vms) →
       group ≠ [] ∧ group = filter (λ vm, Provider vm = name) vms)
  ∧ NoDup (range_map o (collate vms)).*1
  ∧ ∀ vm, vm ∈ vms →
      ∃ group, (Provider vm, group) ∈ range_map o (collate vms) ∧ vm ∈ group.
Proof.
  split_and!.
  - unfold range_map. by rewrite shuffle_perm, collate_concat.
  - intros name group Hin. apply (range_map_lookup (collate vms)) in Hin.
    rewrite collate_lookup in Hin. case_decide as Hname; [|done].
    injection Hin as <-. split; [|done].
    apply list_elem_of_fmap in Hname as (vm & -> & Hvm).
    intros Hnil. assert (vm ∈ filter (λ vm', Provider vm' = Provider vm) vms) as Hf.
    { by apply list_elem_of_filter. }
    rewrite Hnil in Hf. by apply elem_of_nil in Hf.
  - unfold range_map. rewrite shuffle_perm. apply NoDup_fst_map_to_list.
  - intros vm Hvm. exists (filter (λ vm', Provider vm' = Provider vm) vms). split.
    + unfold range_map. rewrite shuffle_perm. apply elem_of_map_to_list.
      rewrite collate_lookup, decide_True; [done|].
      apply list_elem_of_fmap. by exists vm.
    + by apply list_elem_of_filter.
Qed.

Module errgroup_more.
Import errgroup.
Section more.
Context {Env PC S : Type}.
Variable body : Env → PC → S → (PC + option error) * S.
Variable entry : PC.
Variable lv : LoopVar.
Variable its : list Env.

(** Induction over all executions. *)
Lemma run_reachable (I : Group (Env := Env) (PC := PC) (S := S) → Prop) s :
  I (start its s) →
  (∀ g pk, wf its g → I g → I (step body entry lv g pk)) →
  ∀ sched, I (run body entry lv sched (start its s)).
Proof.
  intros Hstart Hstep sched.
  induction sched as [|pk sched IH] using rev_ind; [done|].
  rewrite errgroup_facts.run_snoc. apply Hstep; [apply errgroup_facts.wf_run|done].
Qed.


Lemma step_idle (g : Group (Env := Env) (PC := PC) (S := S)) i :
  length (tasks g) ≤ i → step body entry lv g (Go i) = g.
Proof. intros Hi. cbn [step]. by rewrite lookup_ge_None_2. Qed.

End more.

Section no_iteration.
Context {Env PC S : Type}.
Variable body : Env → PC → S → (PC + option error) * S.
Variable entry : PC.
Variable lv : LoopVar.

Lemma run_nil sched (s : S) :
  run body entry lv sched (start [] s) = start [] s.
Proof.
  induction sched as [|pk sched IH] using rev_ind; [done|].
  rewrite errgroup_facts.run_snoc, IH. by destruct pk.
Qed.

Lemma Wait_nil sched (s : S) : Wait body entry lv sched [] s = Some (None, s).
Proof. unfold Wait. by rewrite run_nil. Qed.
End no_iteration.
End errgroup_more.

Section ProvidersParallel_more.
Context {P S : Type}.
Variable Providers : gmap string P.
Variable action : P → S → option error * S.
Variable lv : LoopVar.

(** X15. [ProvidersParallel] over one name is [ForProvider] on that
    name: the execution that runs the goroutine returns it, and every
    execution that returns gives the result and the state of
    [ForProvider], whichever way the loop variable is kept. *)
Theorem ProvidersParallel_single (name : string) (s : S) :
  ProvidersParallel Providers lv [errgroup.Loop; errgroup.Go 0] [name] action s
    = Some (ForProvider Providers name action s)
  ∧ ∀ sched r,
      ProvidersParallel Providers lv sched [name] action s = Some r →
      r = ForProvider Providers name action s.
Proof.
  split.
  - unfold ProvidersParallel, errgroup.Wait. simpl.
    assert (errgroup.captured lv
              (errgroup.mkGroup (PC := unit) [] (Some name) [(name, Some ())] None s false)
              name = name) as Hc by by destruct lv.
    rewrite Hc. unfold ProvidersParallel_closure.
    by destruct (ForProvider Providers name action s) as [e s'].
  - intros sched r. unfold ProvidersParallel, errgroup.Wait.
    set (g := errgroup.run _ _ _ _ _).
    assert (g = errgroup.start [name] s
            ∨ g = errgroup.mkGroup [] (Some name) [(name, Some ())] None s false
            ∨ ∃ e s', ForProvider Providers name action s = (e, s')
                      ∧ g = errgroup.mkGroup [] (Some name) [(name, None)] e s' false)
      as Hg.
    { subst g. apply errgroup_more.run_reachable; [by left|].
      intros g pk _ [->|[->|(e & s' & Hfor & ->)]].
      - destruct pk as [|i]; [right; by left|left].
        apply errgroup_more.step_idle. simpl. lia.
      - destruct pk as [|[|i]]; [right; by left| |].
        2:{ rewrite errgroup_more.step_idle by (simpl; lia). right. by left. }
        right. right. simpl.
        assert (errgroup.captured lv
              (errgroup.mkGroup (PC := unit) [] (Some name) [(name, Some ())] None s false)
              name = name) as -> by by destruct lv.
        unfold ProvidersParallel_closure.
        destruct (ForProvider Providers name action s) as [e s'].
        exists e, s'. split; [done|]. f_equal. by destruct lv.
      - destruct pk as [|[|i]]; right; right; exists e, s';
          (split; [done|]); [done..|]. apply errgroup_more.step_idle. simpl. lia. }
    destruct Hg as [->|[->|(e & s' & Hfor & ->)]]; simpl; [done..|].
    intros [= <-]. by rewrite Hfor.
Qed.

(** X16. Over no name [ProvidersParallel] returns nil in every
    execution, and leaves the state as it was: the action is not
    called. *)
Theorem ProvidersParallel_nil sched (s : S) :
  ProvidersParallel Providers lv sched [] action s = Some (None, s).
Proof. apply errgroup_more.Wait_nil. Qed.
End ProvidersParallel_more.

Lemma range_collate_nil (o : MapOrder) : range_map o (collate []) = [].
Proof.
  apply Permutation_nil_r. unfold range_map. rewrite shuffle_perm.
  unfold collate. simpl. by rewrite map_to_list_empty.
Qed.

Lemma range_collate_uniform (o : MapOrder) (name : string) (vms : List) :
  vms ≠ [] → (∀ vm, vm ∈ vms → Provider vm = name) →
  range_map o (collate vms) = [(name, vms)].
Proof.
  intros Hne Hall. apply Permutation_singleton_r.
  unfold range_map. rewrite shuffle_perm.
  assert (collate vms = {[name := vms]}) as ->; [|by rewrite map_to_list_singleton].
  apply map_eq. intros k. rewrite collate_lookup.
  destruct (decide (k = name)) as [->|Hk].
  - rewrite lookup_singleton_eq, decide_True.
    + f_equal. clear Hne. induction vms as [|vm l IH]; [apply filter_nil|].
      rewrite filter_cons_True by (apply Hall; left).
      f_equal. apply IH. intros ??. apply Hall. by right.
    + destruct vms as [|vm l]; [done|]. rewrite fmap_cons, (Hall vm) by left. left.
  - rewrite lookup_singleton_ne by done. rewrite decide_False; [done|].
    intros (vm & -> & Hin)%list_elem_of_fmap. by apply Hk, Hall.
Qed.

Section FanOut_more.
Context {P S : Type}.
Variable Providers : gmap string P.
Variable action : P → List → S → option error * S.
Variable lv : LoopVar.

(** The call [FanOut] stands for when the list has one group. *)
Lemma FanOut_one_group (x : string * List) (s : S) :
  let direct :=
    match Providers !! x.1 with
    | Some p => action p x.2 s
    | None => (Some (New ("unknown provider name: " +:+ x.1)), s)
    end in
  errgroup.Wait (FanOut_closure Providers action) AtLookup lv
    [errgroup.Loop; errgroup.Go 0; errgroup.Go 0] [x] s = Some direct
  ∧ ∀ sched r,
      errgroup.Wait (FanOut_closure Providers action) AtLookup lv sched [x] s = Some r →
      r = direct.
Proof.
  intros direct.
  assert (∀ pc e (s0 : S) b,
            errgroup.captured lv
              (errgroup.mkGroup (PC := @FanOutPC P) [] (Some x) [(x, pc)] e s0 b) x = x)
    as Hc by (intros; by destruct lv).
  assert (∀ pc e (s0 : S) b,
            errgroup.reads_later lv
              (errgroup.mkGroup (PC := @FanOutPC P) [] (Some x) [(x, pc)] e s0 b) 0
            = false)
    as Hr by (intros; by destruct lv).
  set (next := match Providers !! x.1 with
               | Some p => AtAction p
               | None => AtUnknown
               end).
  assert (∀ sched,
    let g := errgroup.run (FanOut_closure Providers action) AtLookup lv sched
               (errgroup.start [x] s) in
    g = errgroup.start [x] s
    ∨ g = errgroup.mkGroup [] (Some x) [(x, Some AtLookup)] None s false
    ∨ g = errgroup.mkGroup [] (Some x) [(x, Some next)] None s false
    ∨ g = errgroup.mkGroup [] (Some x) [(x, None)] direct.1 direct.2 false) as Hreach.
  { intros sched. apply errgroup_more.run_reachable; [by left|].
    intros g pk _ [-> | [-> | [-> | ->]]].
    - destruct pk as [|i]; [right; by left|left].
      apply errgroup_more.step_idle. simpl. lia.
    - destruct pk as [|[|i]]; [right; by left| |].
      2:{ rewrite errgroup_more.step_idle by (simpl; lia). right. by left. }
      right. right. left. simpl. rewrite Hc, Hr. subst next.
      by destruct (Providers !! x.1).
    - destruct pk as [|[|i]]; [right; right; by left| |].
      2:{ rewrite errgroup_more.step_idle by (simpl; lia). right. right. by left. }
      right. right. right. simpl. rewrite Hc, Hr. subst next direct.
      destruct (Providers !! x.1) as [p|]; simpl; [|done].
      by destruct (action p x.2 s).
    - right. right. right. destruct pk as [|[|i]]; [done..|].
      apply errgroup_more.step_idle. simpl. lia. }
  split.
  - unfold errgroup.Wait. simpl. rewrite !Hc, !Hr. subst direct.
    destruct (Providers !! x.1) as [p|]; simpl; rewrite ?Hc, ?Hr; simpl; [|done].
    by destruct (action p x.2 s) as [e s'].
  - intros sched r. unfold errgroup.Wait.
    destruct (Hreach sched) as [-> | [-> | [-> | ->]]]; simpl; [done..|].
    intros [= <-]. by destruct direct.
Qed.

(** X17. For a list, not empty, of VMs of one provider, [FanOut] is the
    direct call: it returns, and every execution that returns gives what
    [action] gives on that provider and the whole list, in the order of
    the list, or "unknown provider name: <name>" with the state unchanged
    when the name is not registered; whichever way the loop variables
    are kept. *)
Theorem FanOut_single_provider (o : MapOrder) (name : string) (vms : List) (s : S) :
  vms ≠ [] → (∀ vm, vm ∈ vms → Provider vm = name) →
  let direct :=
    match Providers !! name with
    | Some p => action p vms s
    | None => (Some (New ("unknown provider name: " +:+ name)), s)
    end in
  FanOut Providers lv o [errgroup.Loop; errgroup.Go 0; errgroup.Go 0] vms action s
    = Some direct
  ∧ ∀ sched r, FanOut Providers lv o sched vms action s = Some r → r = direct.
Proof.
  intros Hne Hall. unfold FanOut. rewrite (range_collate_uniform o name vms Hne Hall).
  apply (FanOut_one_group (name, vms) s).
Qed.

(** X18. On the empty list [FanOut] returns nil in every execution, and
    leaves the state as it was: the action is not called. *)
Theorem FanOut_nil (o : MapOrder) sched (s : S) :
  FanOut Providers lv o sched [] action s = Some (None, s).
Proof. unfold FanOut. rewrite range_collate_nil. apply errgroup_more.Wait_nil. Qed.
End FanOut_more.



Section ProvidersParallel_safety.
Context {P S : Type}.
Variable Providers : gmap string P.
Variable action : P → S → option error * S.
Variable lv : LoopVar.
Variable named : list string.



End ProvidersParallel_safety.

Section FanOut_safety.
Context {P S : Type}.
Variable Providers : gmap string P.
Variable action : P → List → S → option error * S.
Variable lv : LoopVar.
Variable its : list (string * List).

End FanOut_safety.

Section FanOut_safety_theorem.
Context {P S : Type}.
Variable Providers : gmap string P.
Variable action : P → List → S → option error * S.
Variable lv : LoopVar.
Variable o : MapOrder.
Variable vms : List.


End FanOut_safety_theorem.

Lemma ProvidersParallel_single_witness :
  (Some (Wrap boom "in provider: gce"), ([(gce, Some boom)], ()))
  = ForProvider three_clouds "gce" (logged (failing_for "gce" boom)) ([], ()).
Proof.
  apply (proj2 (ProvidersParallel_single three_clouds
                  (logged (failing_for "gce" boom)) PerLoop "gce" ([], ()))
           (errgroup.late 1 1)).
  reflexivity.
Defined.

Lemma FanOut_single_provider_witness :
  let a1 := vm_of "a1" "aws" "us-east-1a" in
  let a2 := vm_of "a2" "aws" "us-east-1b" in
  FanOut two_clouds PerLoop reversed
    [errgroup.Loop; errgroup.Go 0; errgroup.Go 0] [a1; a2]
    (logged2 (λ p (_ : List), succeeding p)) ([], ())
  = Some (None, ([((aws, [a1; a2]), None)], ())).
Proof.
  intros a1 a2.
  apply (proj1 (FanOut_single_provider two_clouds
                  (logged2 (λ p (_ : List), succeeding p)) PerLoop reversed
                  "aws" [a1; a2] ([], ()) ltac:(done)
                  ltac:(intros vm Hvm; repeat (apply elem_of_cons in Hvm as [->|Hvm];
                                               [reflexivity|]);
                        by apply elem_of_nil in Hvm))).
Defined.


